(** * The timeline editing core (engine/cpp/core), as a shallow embedding

    The development follows [clip.h], [timeline.h] and [timeline.cpp].

    Modelling conventions.
    - [double] values are exact rationals ([Q]); [std::max] and [std::min]
      are written out with the comparison that <algorithm> uses, so the
      argument that is returned on a tie is the one the C++ returns.
      Rounding, infinities and NaN are outside the model.
    - [std::vector] is [list]; [std::unordered_map] is [gmap].
    - A [Track*] is the position of the track in [sequence_.tracks]; a
      [Clip*] is a pair (track position, clip position).  Reading through
      a pointer looks the position up in the current sequence, writing
      through it alters the element at that position, so two pointers to
      the same slot alias as they do in the C++.
    - The member functions take the timeline and return the boolean
      together with the timeline they leave behind.
    - [std::sort] is modelled by insertion sort with the comparator of the
      source; the order among clips with equal [start] is left open by the
      C++ standard, and no statement below depends on it.
    - Positions stored in the two indices always lie inside the vectors
      (lemma [reachable_indices_agree] and [indexTracks_clip_sound]); the
      total lookups used for the reads fall back on a default-constructed
      value only outside that range, which no reachable state exercises.
      [erase] at a position past the end is undefined in C++; the list
      [delete] used here leaves the vector as it is.  After
      [erase] of the last element of a vector the old slot still holds the
      bytes of the erased clip; a read of [start] through a pointer to that
      slot yields the erased clip's [start]. *)

From Stdlib Require Import Ascii QArith Qminmax Lqa.
From stdpp Require Import base option list sorting strings gmap.

(** ** <algorithm> on doubles *)

Definition double := Q.
Bind Scope Q_scope with double.

Definition dlt (a b : double) : bool := negb (Qle_bool b a).
Definition dle (a b : double) : bool := Qle_bool a b.
Definition dge (a b : double) : bool := Qle_bool b a.
Definition dgt (a b : double) : bool := negb (Qle_bool a b).

(** [std::max(a, b)] is [(a < b) ? b : a]. *)
Definition std_max (a b : double) : double := if dlt a b then b else a.
(** [std::min(a, b)] is [(b < a) ? b : a]. *)
Definition std_min (a b : double) : double := if dlt b a then b else a.

(** ** clip.h *)

Module ClipKind.
Inductive t := Video | Audio | Image.
End ClipKind.

Module Effect.
Record t := mk {
  id : string;
  type : string;
  params : gmap string double;
  enabled : bool
}.
End Effect.

Module TransitionSpec.
Record t := mk {
  id : string;
  type : string;
  duration : double;
  easing : double
}.
End TransitionSpec.

Module Clip.
Record t := mk {
  id : string;
  mediaId : string;
  trackId : string;
  kind : ClipKind.t;
  start : double;
  duration : double;
  trimStart : double;
  trimEnd : double;
  opacity : double;
  volume : double;
  effects : list Effect.t;
  transitions : list TransitionSpec.t
}.

Definition endTime (c : t) : double := (start c + duration c)%Q.

(** The default member initialisers of [struct Clip]. *)
Definition default : t :=
  mk "" "" "" ClipKind.Video 0%Q 0%Q 0%Q 0%Q 1%Q 1%Q [] [].

Definition with_id (c : t) (v : string) : t :=
  mk v (mediaId c) (trackId c) (kind c) (start c) (duration c)
     (trimStart c) (trimEnd c) (opacity c) (volume c) (effects c)
     (transitions c).
Definition with_trackId (c : t) (v : string) : t :=
  mk (id c) (mediaId c) v (kind c) (start c) (duration c)
     (trimStart c) (trimEnd c) (opacity c) (volume c) (effects c)
     (transitions c).
Definition with_start (c : t) (v : double) : t :=
  mk (id c) (mediaId c) (trackId c) (kind c) v (duration c)
     (trimStart c) (trimEnd c) (opacity c) (volume c) (effects c)
     (transitions c).
Definition with_duration (c : t) (v : double) : t :=
  mk (id c) (mediaId c) (trackId c) (kind c) (start c) v
     (trimStart c) (trimEnd c) (opacity c) (volume c) (effects c)
     (transitions c).
Definition with_trimStart (c : t) (v : double) : t :=
  mk (id c) (mediaId c) (trackId c) (kind c) (start c) (duration c)
     v (trimEnd c) (opacity c) (volume c) (effects c)
     (transitions c).
Definition with_trimEnd (c : t) (v : double) : t :=
  mk (id c) (mediaId c) (trackId c) (kind c) (start c) (duration c)
     (trimStart c) v (opacity c) (volume c) (effects c)
     (transitions c).
End Clip.

#[global] Instance Clip_inhabited : Inhabited Clip.t := populate Clip.default.

(** ** timeline.h *)

Module TrackKind.
Inductive t := Video | Audio | Overlay | Fx.

Definition is_video (k : t) : bool :=
  match k with Video => true | _ => false end.
End TrackKind.

Module Track.
Record t := mk {
  id : string;
  kind : TrackKind.t;
  allowOverlap : bool;
  locked : bool;
  muted : bool;
  clips : list Clip.t
}.

Definition default : t := mk "" TrackKind.Video false false false [].

Definition with_clips (T : t) (cs : list Clip.t) : t :=
  mk (id T) (kind T) (allowOverlap T) (locked T) (muted T) cs.
End Track.

#[global] Instance Track_inhabited : Inhabited Track.t := populate Track.default.

Module Sequence.
Record t := mk {
  id : string;
  name : string;
  width : Z;
  height : Z;
  fps : double;
  sampleRate : Z;
  duration : double;
  tracks : list Track.t
}.

Definition default : t := mk "sequence-0" "Main" 1920 1080 30%Q 48000 0%Q [].

Definition with_tracks (s : t) (ts : list Track.t) : t :=
  mk (id s) (name s) (width s) (height s) (fps s) (sampleRate s)
     (duration s) ts.
Definition with_duration (s : t) (d : double) : t :=
  mk (id s) (name s) (width s) (height s) (fps s) (sampleRate s)
     d (tracks s).

(** [tracks[ti]] and [tracks[ti].clips[ci]], read. *)
Definition trackAt (s : t) (ti : nat) : Track.t := tracks s !!! ti.
Definition clipAt (s : t) (loc : nat * nat) : Clip.t :=
  Track.clips (trackAt s loc.1) !!! loc.2.

(** Writes through a [Track*] and through a [Clip*]. *)
Definition alterTrack (ti : nat) (f : Track.t -> Track.t) (s : t) : t :=
  with_tracks s (alter f ti (tracks s)).
Definition alterClip (loc : nat * nat) (f : Clip.t -> Clip.t) (s : t) : t :=
  alterTrack loc.1
    (fun T => Track.with_clips T (alter f loc.2 (Track.clips T))) s.
End Sequence.

Module TimelineFrameInfo.
Record t := mk {
  clipId : string;
  localTime : double;
  globalTime : double
}.
End TimelineFrameInfo.

(** ** timeline.cpp: the helpers of the anonymous namespace *)

Definition clipOverlaps (a b : Clip.t) : bool :=
  let startDiff := std_max (Clip.start a) (Clip.start b) in
  let endDiff := std_min (Clip.endTime a) (Clip.endTime b) in
  dgt (endDiff - startDiff)%Q (1 # 1000000).

(** [std::sort(first, last, [](lhs, rhs) { return lhs.start < rhs.start; })] *)
Fixpoint sort_insert (x : Clip.t) (l : list Clip.t) : list Clip.t :=
  match l with
  | [] => [x]
  | y :: l' =>
      if dlt (Clip.start y) (Clip.start x) then y :: sort_insert x l'
      else x :: l
  end.

Fixpoint std_sort (l : list Clip.t) : list Clip.t :=
  match l with
  | [] => []
  | x :: l' => sort_insert x (std_sort l')
  end.

(** ** timeline.cpp: class Timeline *)

Module Timeline.
Record t := mk {
  sequence_ : Sequence.t;
  undoStack_ : list Sequence.t;
  redoStack_ : list Sequence.t;
  trackIndex_ : gmap string nat;
  clipIndex_ : gmap string (nat * nat)
}.

Definition new : t := mk Sequence.default [] [] ∅ ∅.

Definition with_sequence (tl : t) (s : Sequence.t) : t :=
  mk s (undoStack_ tl) (redoStack_ tl) (trackIndex_ tl) (clipIndex_ tl).
Definition with_trackIndex (tl : t) (m : gmap string nat) : t :=
  mk (sequence_ tl) (undoStack_ tl) (redoStack_ tl) m (clipIndex_ tl).

Definition sequence (tl : t) : Sequence.t := sequence_ tl.
Definition duration (tl : t) : double := Sequence.duration (sequence_ tl).

Definition setSequenceMetadata (tl : t) (width height : Z) (fps : double)
    (sampleRate : Z) : t :=
  let s := sequence_ tl in
  with_sequence tl
    (Sequence.mk (Sequence.id s) (Sequence.name s) width height fps
       sampleRate (Sequence.duration s) (Sequence.tracks s)).

(** *** Private members *)

Definition clearRedo (tl : t) : t :=
  mk (sequence_ tl) (undoStack_ tl) [] (trackIndex_ tl) (clipIndex_ tl).

Definition pushUndo (tl : t) : t :=
  let pushed := undoStack_ tl ++ [sequence_ tl] in
  let bounded := if (32 <? length pushed)%nat then tail pushed else pushed in
  clearRedo
    (mk (sequence_ tl) bounded (redoStack_ tl) (trackIndex_ tl)
       (clipIndex_ tl)).

(** The inner loop of [rebuildIndices]: clips [c], [c+1], ... of track [t]. *)
Fixpoint indexClips (t c : nat) (cs : list Clip.t)
    (m : gmap string (nat * nat)) : gmap string (nat * nat) :=
  match cs with
  | [] => m
  | clip :: cs' => indexClips t (S c) cs' (<[Clip.id clip := (t, c)]> m)
  end.

(** The outer loop of [rebuildIndices]: tracks [t], [t+1], ... *)
Fixpoint indexTracks (t : nat) (ts : list Track.t)
    (mt : gmap string nat) (mc : gmap string (nat * nat))
    : gmap string nat * gmap string (nat * nat) :=
  match ts with
  | [] => (mt, mc)
  | track :: ts' =>
      indexTracks (S t) ts' (<[Track.id track := t]> mt)
        (indexClips t 0 (Track.clips track) mc)
  end.

Definition rebuildIndices (tl : t) : t :=
  let rebuilt := indexTracks 0 (Sequence.tracks (sequence_ tl)) ∅ ∅ in
  mk (sequence_ tl) (undoStack_ tl) (redoStack_ tl) rebuilt.1 rebuilt.2.

Definition findTrack (tl : t) (trackId : string) : option nat :=
  trackIndex_ tl !! trackId.

Definition findClip (tl : t) (clipId : string) : option (nat * nat) :=
  clipIndex_ tl !! clipId.

(** The loop of [validatePlacement], from position [i] on. *)
Fixpoint placementFree (i : nat) (cs : list Clip.t) (candidate : Clip.t)
    (ignoreIndex : option nat) : bool :=
  match cs with
  | [] => true
  | c :: cs' =>
      if bool_decide (ignoreIndex = Some i)
      then placementFree (S i) cs' candidate ignoreIndex
      else if clipOverlaps c candidate then false
      else placementFree (S i) cs' candidate ignoreIndex
  end.

Definition validatePlacement (track : Track.t) (candidate : Clip.t)
    (ignoreIndex : option nat) : bool :=
  if Track.allowOverlap track then true
  else placementFree 0 (Track.clips track) candidate ignoreIndex.

(** The double loop of [updateDuration]. *)
Definition maxEndClips (cs : list Clip.t) (acc : double) : double :=
  foldl (fun m clip => std_max m (Clip.endTime clip)) acc cs.
Definition maxEndTracks (ts : list Track.t) (acc : double) : double :=
  foldl (fun m track => maxEndClips (Track.clips track) m) acc ts.

Definition updateDuration (tl : t) : t :=
  let maxDuration := maxEndTracks (Sequence.tracks (sequence_ tl)) 0%Q in
  with_sequence tl (Sequence.with_duration (sequence_ tl) maxDuration).

(** *** Track operations *)

Definition addTrack (tl : t) (track : Track.t) : bool * t :=
  match trackIndex_ tl !! Track.id track with
  | Some _ => (false, tl)
  | None =>
      let tl1 := pushUndo tl in
      let s := sequence_ tl1 in
      let tl2 :=
        with_sequence tl1
          (Sequence.with_tracks s (Sequence.tracks s ++ [track])) in
      let tl3 :=
        with_trackIndex tl2
          (<[Track.id track :=
               (length (Sequence.tracks (sequence_ tl2)) - 1)%nat]>
             (trackIndex_ tl2)) in
      (true, rebuildIndices tl3)
  end.

Definition updateTrack (tl : t) (track : Track.t) : bool * t :=
  match findTrack tl (Track.id track) with
  | None => (false, tl)
  | Some existing =>
      let tl1 := pushUndo tl in
      let tl2 :=
        with_sequence tl1
          (Sequence.alterTrack existing (fun _ => track) (sequence_ tl1)) in
      (true, rebuildIndices tl2)
  end.

Definition removeTrack (tl : t) (trackId : string) : bool * t :=
  match trackIndex_ tl !! trackId with
  | None => (false, tl)
  | Some pos =>
      let tl1 := pushUndo tl in
      let s := sequence_ tl1 in
      let tl2 :=
        with_sequence tl1
          (Sequence.with_tracks s (delete pos (Sequence.tracks s))) in
      (true, rebuildIndices tl2)
  end.

(** *** Clip operations *)

Definition sortTrack (T : Track.t) : Track.t :=
  Track.with_clips T (std_sort (Track.clips T)).
Definition pushClip (clip : Clip.t) (T : Track.t) : Track.t :=
  Track.with_clips T (Track.clips T ++ [clip]).

Definition upsertClip (tl : t) (clip : Clip.t) : bool * t :=
  match findTrack tl (Clip.trackId clip) with
  | None => (false, tl)
  | Some track =>
      let finish (tl2 : t) : bool * t :=
        let tl3 :=
          with_sequence tl2
            (Sequence.alterTrack track sortTrack (sequence_ tl2)) in
        (true, updateDuration (rebuildIndices tl3)) in
      match clipIndex_ tl !! Clip.id clip with
      | None =>
          if negb (validatePlacement (Sequence.trackAt (sequence_ tl) track)
                     clip None)
          then (false, tl)
          else
            let tl1 := pushUndo tl in
            finish
              (with_sequence tl1
                 (Sequence.alterTrack track (pushClip clip)
                    (sequence_ tl1)))
      | Some pair_ =>
          if negb (validatePlacement (Sequence.trackAt (sequence_ tl) track)
                     clip (Some pair_.2))
          then (false, tl)
          else
            let tl1 := pushUndo tl in
            finish
              (with_sequence tl1
                 (Sequence.alterClip pair_ (fun _ => clip) (sequence_ tl1)))
      end
  end.

Definition moveClip (tl : t) (clipId targetTrackId : string)
    (newStart : double) : bool * t :=
  match findClip tl clipId, findTrack tl targetTrackId with
  | Some clip, Some targetTrack =>
      let candidate :=
        Clip.with_start
          (Clip.with_trackId (Sequence.clipAt (sequence_ tl) clip)
             targetTrackId)
          newStart in
      if negb (validatePlacement
                 (Sequence.trackAt (sequence_ tl) targetTrack)
                 candidate None)
      then (false, tl)
      else
        let tl1 := pushUndo tl in
        let tl2 :=
          with_sequence tl1
            (Sequence.alterClip clip (fun _ => candidate) (sequence_ tl1)) in
        (true, updateDuration (rebuildIndices tl2))
  | _, _ => (false, tl)
  end.

Definition trimClip (tl : t) (clipId : string) (trimStart trimEnd : double)
    : bool * t :=
  match findClip tl clipId with
  | None => (false, tl)
  | Some clip =>
      let newDuration :=
        std_max 0%Q
          (Clip.duration (Sequence.clipAt (sequence_ tl) clip)
           - trimStart - trimEnd)%Q in
      if dle newDuration 0%Q then (false, tl)
      else
        let tl1 := pushUndo tl in
        let tl2 :=
          with_sequence tl1
            (Sequence.alterClip clip
               (fun c =>
                  Clip.with_duration
                    (Clip.with_trimEnd
                       (Clip.with_trimStart c
                          (Clip.trimStart c + trimStart)%Q)
                       (Clip.trimEnd c + trimEnd)%Q)
                    newDuration)
               (sequence_ tl1)) in
        (true, updateDuration tl2)
  end.

Definition splitClip (tl : t) (clipId : string) (offsetSeconds : double)
    : bool * t :=
  match findClip tl clipId with
  | None => (false, tl)
  | Some clip =>
      let original := Sequence.clipAt (sequence_ tl) clip in
      if dle offsetSeconds 0%Q || dge offsetSeconds (Clip.duration original)
      then (false, tl)
      else
        let tl1 := pushUndo tl in
        let secondHalf :=
          Clip.with_duration
            (Clip.with_trimStart
               (Clip.with_start
                  (Clip.with_id original (Clip.id original +:+ "_b"))
                  (Clip.start original + offsetSeconds)%Q)
               (Clip.trimStart original + offsetSeconds)%Q)
            (Clip.duration original - offsetSeconds)%Q in
        let tl2 :=
          with_sequence tl1
            (Sequence.alterClip clip
               (fun c =>
                  Clip.with_trimEnd (Clip.with_duration c offsetSeconds)
                    (Clip.trimEnd c + Clip.duration secondHalf)%Q)
               (sequence_ tl1)) in
        match findTrack tl2
                (Clip.trackId (Sequence.clipAt (sequence_ tl2) clip)) with
        | None => (false, tl2)
        | Some track =>
            let tl3 :=
              with_sequence tl2
                (Sequence.alterTrack track
                   (fun T => sortTrack (pushClip secondHalf T))
                   (sequence_ tl2)) in
            (true, updateDuration (rebuildIndices tl3))
        end
  end.

(** [clip->start] as the loop of [rippleDelete] reads it, once [erase] has
    run on the vector of track [track] and that vector holds [cs].  The
    pointer [clip] still addresses slot [clip.2] of track [clip.1]: in the
    erased vector this is the clip that slid into the slot, or, past the
    end, the bytes of the removed clip; in another track it is the removed
    clip itself, which the loop does not touch. *)
Definition startThroughClip (clip : nat * nat) (track : nat)
    (removed : Clip.t) (cs : list Clip.t) : double :=
  if bool_decide (clip.1 = track)
  then match cs !! clip.2 with
       | Some c => Clip.start c
       | None => Clip.start removed
       end
  else Clip.start removed.

(** The loop of [rippleDelete] over [track->clips], from position [j] on,
    for [n] more elements.  [clipStart cs] is what [clip->start] reads
    while the vector of the track holds [cs]. *)
Fixpoint rippleShift (n j : nat) (cs : list Clip.t)
    (clipStart : list Clip.t -> double) (removedDuration : double)
    : list Clip.t :=
  match n with
  | O => cs
  | S n' =>
      let otherClip : Clip.t := cs !!! j in
      let cs' :=
        if dge (Clip.start otherClip) (clipStart cs)
        then
          <[j := Clip.with_start otherClip
                   (std_max 0%Q (Clip.start otherClip - removedDuration)%Q)]>
            cs
        else cs in
      rippleShift n' (S j) cs' clipStart removedDuration
  end.

Definition rippleDelete (tl : t) (clipId : string) : bool * t :=
  match findClip tl clipId with
  | None => (false, tl)
  | Some clip =>
      let removed := Sequence.clipAt (sequence_ tl) clip in
      match findTrack tl (Clip.trackId removed) with
      | None => (false, tl)
      | Some track =>
          let removedDuration := Clip.duration removed in
          let tl1 := pushUndo tl in
          let erased :=
            delete clip.2
              (Track.clips (Sequence.trackAt (sequence_ tl1) track)) in
          let clipStart := startThroughClip clip track removed in
          let shifted :=
            rippleShift (length erased) 0 erased clipStart
              removedDuration in
          let tl2 :=
            with_sequence tl1
              (Sequence.alterTrack track
                 (fun T => Track.with_clips T shifted) (sequence_ tl1)) in
          (true, updateDuration (rebuildIndices tl2))
      end
  end.

(** *** Queries *)

Definition clipContains (timeSeconds : double) (clip : Clip.t) : bool :=
  dge timeSeconds (Clip.start clip) && dle timeSeconds (Clip.endTime clip).

Fixpoint frameInClips (timeSeconds : double) (cs : list Clip.t)
    : option TimelineFrameInfo.t :=
  match cs with
  | [] => None
  | clip :: cs' =>
      if clipContains timeSeconds clip
      then Some (TimelineFrameInfo.mk (Clip.id clip)
                   (timeSeconds - Clip.start clip)%Q timeSeconds)
      else frameInClips timeSeconds cs'
  end.

Fixpoint frameInTracks (timeSeconds : double) (ts : list Track.t)
    : option TimelineFrameInfo.t :=
  match ts with
  | [] => None
  | track :: ts' =>
      if negb (TrackKind.is_video (Track.kind track))
      then frameInTracks timeSeconds ts'
      else match frameInClips timeSeconds (Track.clips track) with
           | Some info => Some info
           | None => frameInTracks timeSeconds ts'
           end
  end.

Definition frameAt (tl : t) (timeSeconds : double)
    : option TimelineFrameInfo.t :=
  frameInTracks timeSeconds (Sequence.tracks (sequence_ tl)).
End Timeline.

(** ** The host's calls, and the states they reach *)

Inductive Op :=
  | SetSequenceMetadata (width height : Z) (fps : double) (sampleRate : Z)
  | AddTrack (track : Track.t)
  | UpdateTrack (track : Track.t)
  | RemoveTrack (trackId : string)
  | UpsertClip (clip : Clip.t)
  | MoveClip (clipId targetTrackId : string) (newStart : double)
  | TrimClip (clipId : string) (trimStart trimEnd : double)
  | SplitClip (clipId : string) (offsetSeconds : double)
  | RippleDelete (clipId : string).

Definition step (tl : Timeline.t) (op : Op) : bool * Timeline.t :=
  match op with
  | SetSequenceMetadata w h fps sr =>
      (true, Timeline.setSequenceMetadata tl w h fps sr)
  | AddTrack T => Timeline.addTrack tl T
  | UpdateTrack T => Timeline.updateTrack tl T
  | RemoveTrack i => Timeline.removeTrack tl i
  | UpsertClip c => Timeline.upsertClip tl c
  | MoveClip i tr s => Timeline.moveClip tl i tr s
  | TrimClip i a b => Timeline.trimClip tl i a b
  | SplitClip i o => Timeline.splitClip tl i o
  | RippleDelete i => Timeline.rippleDelete tl i
  end.

(** The timeline after a script of calls, whatever each call returned. *)
Definition run (ops : list Op) : Timeline.t :=
  foldl (fun tl op => (step tl op).2) Timeline.new ops.

Inductive reachable : Timeline.t -> Prop :=
  | reachable_new : reachable Timeline.new
  | reachable_step tl op : reachable tl -> reachable (step tl op).2.

(** ** clip.cpp and timeline.cpp: the names of the kinds *)

Definition clipKindFromString (kind : string) : ClipKind.t :=
  if String.eqb kind "audio" then ClipKind.Audio
  else if String.eqb kind "image" then ClipKind.Image
  else ClipKind.Video.

Definition clipKindToString (kind : ClipKind.t) : string :=
  match kind with
  | ClipKind.Audio => "audio"
  | ClipKind.Image => "image"
  | ClipKind.Video => "video"
  end.

Definition trackKindFromString (kind : string) : TrackKind.t :=
  if String.eqb kind "audio" then TrackKind.Audio
  else if String.eqb kind "overlay" then TrackKind.Overlay
  else if String.eqb kind "fx" then TrackKind.Fx
  else TrackKind.Video.

Definition trackKindToString (kind : TrackKind.t) : string :=
  match kind with
  | TrackKind.Audio => "audio"
  | TrackKind.Overlay => "overlay"
  | TrackKind.Fx => "fx"
  | TrackKind.Video => "video"
  end.

(** ** timeline.cpp: [escape] of the anonymous namespace *)

(** The three characters the [switch] of [escape] singles out, by code:
    the double quote (34), the backslash (92) and the line feed (10). *)
Definition dquote : ascii := "034"%char.
Definition backslash : ascii := "092"%char.
Definition linefeed : ascii := "010"%char.

(** One turn of the loop of [escape]: what is appended for [c]. *)
Definition escapeChar (c : ascii) : string :=
  if Ascii.eqb c dquote then String backslash (String dquote EmptyString)
  else if Ascii.eqb c backslash
       then String backslash (String backslash EmptyString)
  else if Ascii.eqb c linefeed
       then String backslash (String "n"%char EmptyString)
  else String c EmptyString.

Fixpoint escape (value : string) : string :=
  match value with
  | EmptyString => EmptyString
  | String c rest => escapeChar c +:+ escape rest
  end.

(** ** compositor.h and compositor.cpp *)

Module CompositorFrame.
Record t := mk {
  time : double;
  clipStack : list string
}.
End CompositorFrame.

Module Compositor.
(** The inner loop of [compose]: the id of the first clip with
    [timeSeconds >= start && timeSeconds <= endTime()], then [break]. *)
Fixpoint firstOnScreen (timeSeconds : double) (cs : list Clip.t)
    : option string :=
  match cs with
  | [] => None
  | clip :: cs' =>
      if dge timeSeconds (Clip.start clip)
         && dle timeSeconds (Clip.endTime clip)
      then Some (Clip.id clip)
      else firstOnScreen timeSeconds cs'
  end.

(** The outer loop of [compose], with the [clipStack] built so far. *)
Fixpoint composeTracks (timeSeconds : double) (ts : list Track.t)
    (clipStack : list string) : list string :=
  match ts with
  | [] => clipStack
  | track :: ts' =>
      match Track.kind track with
      | TrackKind.Audio => composeTracks timeSeconds ts' clipStack
      | _ =>
          match firstOnScreen timeSeconds (Track.clips track) with
          | Some id => composeTracks timeSeconds ts' (clipStack ++ [id])
          | None => composeTracks timeSeconds ts' clipStack
          end
      end
  end.

Definition compose (sequence : Sequence.t) (timeSeconds : double)
    : CompositorFrame.t :=
  CompositorFrame.mk timeSeconds
    (composeTracks timeSeconds (Sequence.tracks sequence) []).
End Compositor.

(** ** effects_processor.h and effects_processor.cpp *)

Module EffectEvaluation.
Record t := mk {
  clipId : string;
  time : double;
  values : list double
}.
End EffectEvaluation.

Module EffectsProcessor.
Record t := mk { simdEnabled_ : bool }.

(** [EffectsProcessor::EffectsProcessor() = default]. *)
Definition new : t := mk true.

Definition setSimdEnabled (ep : t) (enabled : bool) : t := mk enabled.

Section Evaluate.
(** [std::sin] of <cmath>, which the model takes as given. *)
Variable std_sin : double -> double.

(** The entries of [effect.params] are visited in the order of
    [map_to_list]; the C++ container leaves the order open, and nothing
    below depends on it. *)
Definition applyEffect (ep : t) (effect : Effect.t) (time : double)
    : list double :=
  foldl
    (fun response entry =>
       let modulation :=
         if simdEnabled_ ep then std_sin (time * (1 # 2))%Q else 1%Q in
       response ++ [(entry.2 * modulation)%Q])
    [] (map_to_list (Effect.params effect)).

Definition evaluate (ep : t) (clip : Clip.t) (localTimeSeconds : double)
    : EffectEvaluation.t :=
  EffectEvaluation.mk (Clip.id clip) localTimeSeconds
    (foldl
       (fun values effect =>
          if negb (Effect.enabled effect) then values
          else values ++ applyEffect ep effect localTimeSeconds)
       [] (Clip.effects clip)).
End Evaluate.
End EffectsProcessor.

(** ** Specification vocabulary *)

(** The five calls that edit clips. *)
Definition is_clip_op (op : Op) : bool :=
  match op with
  | UpsertClip _ | MoveClip _ _ _ | TrimClip _ _ _ | SplitClip _ _
  | RippleDelete _ => true
  | _ => false
  end.

(** [d] is the larger of 0 and the greatest [endTime] of the clips of [s]. *)
Definition floored_max_end (s : Sequence.t) (d : double) : Prop :=
  (0 <= d)%Q /\
  (forall T c, T ∈ Sequence.tracks s -> c ∈ Track.clips T ->
               (Clip.endTime c <= d)%Q) /\
  (d = 0%Q \/
   exists T c, T ∈ Sequence.tracks s /\ c ∈ Track.clips T /\
               d = Clip.endTime c).

(** All clips of a sequence, track after track. *)
Definition all_clips (s : Sequence.t) : list Clip.t :=
  concat (map Track.clips (Sequence.tracks s)).

(** The duration as the specification words it: the greatest [endTime]
    over all clips, or 0 when there is no clip. *)
Definition max_end_or_zero (s : Sequence.t) (d : double) : Prop :=
  match all_clips s with
  | [] => (d == 0)%Q
  | _ :: _ =>
      (forall c, c ∈ all_clips s -> (Clip.endTime c <= d)%Q) /\
      (exists c, c ∈ all_clips s /\ (Clip.endTime c == d)%Q)
  end.

(** ** Vocabulary of the [frameAt] query and of the track order *)

(** [start <= t <= endTime]: the clip is on screen at time [t]. *)
Definition on_screen (t : double) (c : Clip.t) : Prop :=
  (Clip.start c <= t)%Q /\ (t <= Clip.endTime c)%Q.

Definition start_le (a b : Clip.t) : Prop :=
  (Clip.start a <= Clip.start b)%Q.

(** A clip list in ascending order of [start]. *)
Definition sorted_by_start (cs : list Clip.t) : Prop :=
  StronglySorted start_le cs.

(** ** The indices at rest *)

(** What [rebuildIndices] reads of the tracks: the identifiers, in place. *)
Definition id_shape (ts : list Track.t) : list (string * list string) :=
  map (fun T => (Track.id T, map Clip.id (Track.clips T))) ts.

(** Both indices are what [rebuildIndices] would compute from [sequence_]. *)
Definition indices_agree (tl : Timeline.t) : Prop :=
  (Timeline.trackIndex_ tl, Timeline.clipIndex_ tl) =
  Timeline.indexTracks 0 (Sequence.tracks (Timeline.sequence_ tl)) ∅ ∅.

(** Invariant 1, first half: no two tracks share an identifier. *)
Definition track_ids_unique (tl : Timeline.t) : Prop :=
  NoDup (map Track.id (Sequence.tracks (Timeline.sequence tl))).

(** What the specification asks of a clip that starts at or after the
    removed one: [start] less the removed duration, floored at 0. *)
Definition rippled (removedDuration : double) (c : Clip.t) : Clip.t :=
  Clip.with_start c (std_max 0 (Clip.start c - removedDuration)%Q).

(** ** Builders and scripts for the worked examples *)

Definition videoClip (id trackId : string) (start duration : double) : Clip.t :=
  Clip.mk id "" trackId ClipKind.Video start duration 0 0 1 1 [] [].

Definition videoTrack (id : string) (clips : list Clip.t) : Track.t :=
  Track.mk id TrackKind.Video false false false clips.

(** One track holding one clip that ends before time 0. *)
Definition negativeClipScript : list Op :=
  [AddTrack (videoTrack "v1" []); UpsertClip (videoClip "a" "v1" (-5) 2)].

(** One track holding the clip [a] on [0, 5]. *)
Definition oneClipScript : list Op :=
  [AddTrack (videoTrack "v1" []); UpsertClip (videoClip "a" "v1" 0 5)].

(** Two clips on a track without overlap, [c] on [0, 4] and [d] on [4, 6]. *)
Definition abuttingClipsScript : list Op :=
  [AddTrack (videoTrack "v1" []);
   UpsertClip (videoClip "c" "v1" 0 4);
   UpsertClip (videoClip "d" "v1" 4 2)].

(** The clips of track [ti], as (id, trackId, start, duration). *)
Definition clipsOnTrack (tl : Timeline.t) (ti : nat)
    : list (string * string * double * double) :=
  map (fun c => (Clip.id c, Clip.trackId c, Clip.start c, Clip.duration c))
    (Track.clips (Sequence.trackAt (Timeline.sequence tl) ti)).

(** A track handed to [addTrack] with a clip whose [trackId] names no track. *)
Definition strayClipScript : list Op :=
  [AddTrack (videoTrack "v1" [videoClip "a" "ghost" 0 4])].

(** Scenario S5 of the specification, up to the rejected move. *)
Definition twoTracksScript : list Op :=
  [AddTrack (videoTrack "v1" []); AddTrack (videoTrack "v2" []);
   UpsertClip (videoClip "p" "v1" 0 2); UpsertClip (videoClip "q" "v2" 1 2);
   MoveClip "p" "v2" 0].

(** Clip [p] sent to track [v2] and that track removed afterwards. *)
Definition orphanedClipScript : list Op :=
  [AddTrack (videoTrack "v1" []); AddTrack (videoTrack "v2" []);
   UpsertClip (videoClip "p" "v1" 0 4); MoveClip "p" "v2" 0;
   RemoveTrack "v2"].

(** Three clips in a row, then the middle one moved past the last. *)
Definition movedPastScript : list Op :=
  [AddTrack (videoTrack "v1" []);
   UpsertClip (videoClip "x" "v1" 0 2); UpsertClip (videoClip "y" "v1" 2 1);
   UpsertClip (videoClip "z" "v1" 5 1); MoveClip "y" "v1" 10].

(** Three clips in a row that start before time 0. *)
Definition beforeZeroScript : list Op :=
  [AddTrack (videoTrack "v1" []);
   UpsertClip (videoClip "x" "v1" (-5) 1);
   UpsertClip (videoClip "y" "v1" (-3) 1);
   UpsertClip (videoClip "z" "v1" (-1) 1)].

Definition twoClipsScript : list Op :=
  [AddTrack (videoTrack "v1" []);
   UpsertClip (videoClip "a" "v1" 0 1); UpsertClip (videoClip "b" "v1" 2 1)].

(** A clip [a] next to a clip that already carries the id [a_b]. *)
Definition suffixTakenScript : list Op :=
  [AddTrack (videoTrack "v1" []);
   UpsertClip (videoClip "a" "v1" 0 4); UpsertClip (videoClip "a_b" "v1" 10 1)].

(** ** Vocabulary of the further properties *)

(** A character that [escape] copies as it is. *)
Definition plain (c : ascii) : Prop :=
  c <> dquote /\ c <> backslash /\ c <> linefeed.

(** What one track adds to the stack of [compose]. *)
Definition layerAt (t : double) (T : Track.t) : option string :=
  match Track.kind T with
  | TrackKind.Audio => None
  | _ => Compositor.firstOnScreen t (Track.clips T)
  end.


(** The number of values an effect contributes: none when disabled. *)
Definition paramCount (effect : Effect.t) : nat :=
  if Effect.enabled effect then size (Effect.params effect) else 0%nat.

(** The calls that take an undo snapshot: all but [setSequenceMetadata]. *)
Definition is_structural (op : Op) : bool :=
  match op with
  | SetSequenceMetadata _ _ _ _ => false
  | _ => true
  end.

(** No clip of the list overlaps a later one. *)
Definition overlap_free (cs : list Clip.t) : Prop :=
  ForallOrdPairs (fun a b => clipOverlaps a b = false) cs.

(** * Properties *)

(** Closed statements about a script are settled by running it. *)
Ltac by_evaluation :=
  intros; repeat match goal with |- _ /\ _ => split end;
  vm_compute; reflexivity.

(** ** Comparisons and [std::max] / [std::min] *)

Lemma dle_spec a b : dle a b = true <-> (a <= b)%Q.
Proof. apply Qle_bool_iff. Qed.

Lemma dge_spec a b : dge a b = true <-> (b <= a)%Q.
Proof. apply Qle_bool_iff. Qed.

Lemma dlt_spec a b : dlt a b = true <-> (a < b)%Q.
Proof.
  unfold dlt. rewrite negb_true_iff, <- not_true_iff_false, Qle_bool_iff.
  split; [apply Qnot_le_lt | apply Qlt_not_le].
Qed.

Lemma dgt_spec a b : dgt a b = true <-> (b < a)%Q.
Proof. apply (dlt_spec b a). Qed.

Lemma dlt_false a b : dlt a b = false <-> (b <= a)%Q.
Proof.
  rewrite <- not_true_iff_false, dlt_spec.
  split; [apply Qnot_lt_le | apply Qle_not_lt].
Qed.

Lemma std_max_cases a b :
  (std_max a b = a /\ (b <= a)%Q) \/ (std_max a b = b /\ (a < b)%Q).
Proof.
  unfold std_max. destruct (dlt a b) eqn:E.
  - right. split; [reflexivity | by apply dlt_spec].
  - left. split; [reflexivity | by apply dlt_false].
Qed.

Lemma std_min_cases a b :
  (std_min a b = a /\ (a <= b)%Q) \/ (std_min a b = b /\ (b < a)%Q).
Proof.
  unfold std_min. destruct (dlt b a) eqn:E.
  - right. split; [reflexivity | by apply dlt_spec].
  - left. split; [reflexivity | by apply dlt_false].
Qed.

Lemma std_max_l a b : (a <= std_max a b)%Q.
Proof. destruct (std_max_cases a b) as [[-> ?]|[-> ?]]; lra. Qed.

Lemma std_max_r a b : (b <= std_max a b)%Q.
Proof. destruct (std_max_cases a b) as [[-> ?]|[-> ?]]; lra. Qed.

(** ** [updateDuration]: the running maximum *)

Section MaxEnd.
Import Timeline.

Lemma maxEndClips_lower cs acc : (acc <= maxEndClips cs acc)%Q.
Proof.
  revert acc. induction cs as [|c cs IH]; intros acc; simpl.
  - lra.
  - eapply Qle_trans; [apply (std_max_l acc (Clip.endTime c)) | apply IH].
Qed.

Lemma maxEndClips_upper cs acc c :
  c ∈ cs -> (Clip.endTime c <= maxEndClips cs acc)%Q.
Proof.
  revert acc. induction cs as [|c' cs IH]; intros acc Hin.
  - by apply elem_of_nil in Hin.
  - apply elem_of_cons in Hin as [->|Hin]; simpl.
    + eapply Qle_trans; [apply (std_max_r acc (Clip.endTime c')) |].
      apply maxEndClips_lower.
    + by apply IH.
Qed.

Lemma maxEndClips_attained cs acc :
  maxEndClips cs acc = acc \/
  exists c, c ∈ cs /\ maxEndClips cs acc = Clip.endTime c.
Proof.
  revert acc. induction cs as [|c cs IH]; intros acc; simpl.
  - by left.
  - destruct (IH (std_max acc (Clip.endTime c))) as [E|(c' & Hin & E)].
    + destruct (std_max_cases acc (Clip.endTime c)) as [[E' _]|[E' _]].
      * left. congruence.
      * right. exists c. split; [apply list_elem_of_here | congruence].
    + right. exists c'. split; [by apply list_elem_of_further | done].
Qed.

Lemma maxEndTracks_lower ts acc : (acc <= maxEndTracks ts acc)%Q.
Proof.
  revert acc. induction ts as [|T ts IH]; intros acc; simpl.
  - lra.
  - eapply Qle_trans; [apply (maxEndClips_lower (Track.clips T)) | apply IH].
Qed.

Lemma maxEndTracks_upper ts acc T c :
  T ∈ ts -> c ∈ Track.clips T -> (Clip.endTime c <= maxEndTracks ts acc)%Q.
Proof.
  revert acc. induction ts as [|T' ts IH]; intros acc HT Hc.
  - by apply elem_of_nil in HT.
  - apply elem_of_cons in HT as [->|HT]; simpl.
    + eapply Qle_trans; [by apply maxEndClips_upper |].
      apply maxEndTracks_lower.
    + by apply IH.
Qed.

Lemma maxEndTracks_attained ts acc :
  maxEndTracks ts acc = acc \/
  exists T c, T ∈ ts /\ c ∈ Track.clips T /\
              maxEndTracks ts acc = Clip.endTime c.
Proof.
  revert acc. induction ts as [|T ts IH]; intros acc; simpl.
  - by left.
  - destruct (IH (maxEndClips (Track.clips T) acc))
      as [E|(T' & c & HT & Hc & E)].
    + destruct (maxEndClips_attained (Track.clips T) acc)
        as [E'|(c & Hc & E')].
      * left. congruence.
      * right. exists T, c.
        split; [apply list_elem_of_here | split; [done | congruence]].
    + right. exists T', c.
      split; [by apply list_elem_of_further | done].
Qed.
End MaxEnd.


Lemma updateDuration_floored_max_end tl :
  let tl' := Timeline.updateDuration tl in
  floored_max_end (Timeline.sequence_ tl') (Timeline.duration tl').
Proof.
  simpl. unfold floored_max_end, Timeline.duration. simpl.
  split; [apply maxEndTracks_lower |].
  split; [intros T c; apply maxEndTracks_upper |].
  apply maxEndTracks_attained.
Qed.

(** ** What each call leaves in [sequence_.duration] *)


Lemma clip_op_success_updates_duration tl op tl' :
  is_clip_op op = true -> step tl op = (true, tl') ->
  exists x, tl' = Timeline.updateDuration x.
Proof.
  destruct op; try discriminate; intros _; simpl;
    unfold Timeline.upsertClip, Timeline.moveClip, Timeline.trimClip,
      Timeline.splitClip, Timeline.rippleDelete;
    intros H; repeat case_match; simplify_eq; eauto.
Qed.

Lemma step_duration tl op :
  Timeline.duration (step tl op).2 = Timeline.duration tl \/
  exists x, (step tl op).2 = Timeline.updateDuration x.
Proof.
  destruct op; simpl;
    unfold Timeline.addTrack, Timeline.updateTrack, Timeline.removeTrack,
      Timeline.upsertClip, Timeline.moveClip, Timeline.trimClip,
      Timeline.splitClip, Timeline.rippleDelete;
    repeat case_match; simpl; eauto.
Qed.

Lemma reachable_run ops : reachable (run ops).
Proof.
  unfold run. induction ops as [|op ops IH] using rev_ind; simpl.
  - constructor.
  - rewrite foldl_app. simpl. by constructor.
Qed.

(** ** Duration *)

(** C10: in every reachable timeline [duration()] is not negative; and
    where every clip ends before time 0, [updateDuration] caches 0, the
    value its running maximum starts from. *)
Theorem C10_duration_never_negative tl :
  reachable tl ->
  (0 <= Timeline.duration tl)%Q /\
  ((forall T c, T ∈ Sequence.tracks (Timeline.sequence_ tl) ->
                c ∈ Track.clips T -> (Clip.endTime c < 0)%Q) ->
   Timeline.duration (Timeline.updateDuration tl) = 0%Q).
Proof.
  intros Hr. split.
  - induction Hr as [|tl op Hr IH]; [by vm_compute |].
    destruct (step_duration tl op) as [->|[x ->]]; [done |].
    apply (updateDuration_floored_max_end x).
  - intros Hneg.
    destruct (updateDuration_floored_max_end tl) as (H0 & _ & [E|(T & c & HT & Hc & E)]);
      [done |].
    simpl in HT. specialize (Hneg T c HT Hc). rewrite E in H0. lra.
Qed.

Lemma C10_duration_never_negative_witness :
  reachable (run negativeClipScript) /\
  (0 <= Timeline.duration (run negativeClipScript))%Q /\
  Timeline.duration (Timeline.updateDuration (run negativeClipScript)) = 0%Q.
Proof.
  split; [apply reachable_run |].
  destruct (C10_duration_never_negative (run negativeClipScript)
              (reachable_run negativeClipScript)) as [H0 Hneg].
  split; [exact H0 |].
  apply Hneg. intros T c HT Hc.
  apply list_elem_of_In in HT. vm_compute in HT. destruct HT as [<-|[]].
  apply list_elem_of_In in Hc. vm_compute in Hc. destruct Hc as [<-|[]].
  reflexivity.
Defined.

(** C3, as amended: after a successful upsertClip, moveClip, trimClip,
    splitClip or rippleDelete, the cached duration is the larger of 0 and
    the greatest [endTime] over all clips: it is not negative, no clip
    ends after it, and it is 0 or the [endTime] of some clip. *)
Theorem C3_clip_ops_duration_floored_max tl op tl' :
  is_clip_op op = true ->
  step tl op = (true, tl') ->
  floored_max_end (Timeline.sequence_ tl') (Timeline.duration tl').
Proof.
  intros Hop Hstep.
  destruct (clip_op_success_updates_duration tl op tl' Hop Hstep) as [x ->].
  apply updateDuration_floored_max_end.
Qed.

Lemma C3_clip_ops_duration_floored_max_witness :
  floored_max_end
    (Timeline.sequence_ (run oneClipScript))
    (Timeline.duration (run oneClipScript)).
Proof.
  apply (C3_clip_ops_duration_floored_max
           (run [AddTrack (videoTrack "v1" [])])
           (UpsertClip (videoClip "a" "v1" 0 5))).
  - reflexivity.
  - vm_compute. reflexivity.
Defined.

(** C3 fails as stated on two counts.  A clip that ends before time 0 is
    accepted and the cached duration is 0, not the (negative) greatest
    [endTime]; and [removeTrack] leaves the duration it found, here 5 for
    a sequence without clips. *)
Lemma C3_duration_not_max_end :
  (exists tl',
     step (run [AddTrack (videoTrack "v1" [])])
          (UpsertClip (videoClip "a" "v1" (-5) 2)) = (true, tl') /\
     all_clips (Timeline.sequence_ tl') = [videoClip "a" "v1" (-5) 2] /\
     Timeline.duration tl' = 0%Q /\
     ~ max_end_or_zero (Timeline.sequence_ tl') (Timeline.duration tl')) /\
  (exists tl',
     step (run oneClipScript) (RemoveTrack "v1") = (true, tl') /\
     all_clips (Timeline.sequence_ tl') = [] /\
     Timeline.duration tl' = 5%Q /\
     ~ max_end_or_zero (Timeline.sequence_ tl') (Timeline.duration tl')).
Proof.
  split; eexists; (split; [vm_compute; reflexivity |]);
    (split; [vm_compute; reflexivity |]);
    (split; [vm_compute; reflexivity |]).
  - unfold max_end_or_zero.
    replace (all_clips _) with [videoClip "a" "v1" (-5) 2]
      by (vm_compute; reflexivity).
    intros [_ (c & Hc & E)].
    apply list_elem_of_singleton in Hc. subst c. vm_compute in E. discriminate.
  - unfold max_end_or_zero.
    replace (all_clips _) with (@nil Clip.t) by (vm_compute; reflexivity).
    intros E. vm_compute in E. discriminate.
Qed.

(** ** [frameAt] *)

Lemma clipContains_spec t c :
  Timeline.clipContains t c = true <-> on_screen t c.
Proof.
  unfold Timeline.clipContains, on_screen.
  rewrite andb_true_iff, dge_spec, dle_spec. tauto.
Qed.

Lemma frameInClips_None t cs :
  Timeline.frameInClips t cs = None <->
  forall c, c ∈ cs -> ~ on_screen t c.
Proof.
  induction cs as [|c cs IH]; simpl.
  - split; [intros _ c Hc; by apply elem_of_nil in Hc | done].
  - destruct (Timeline.clipContains t c) eqn:E.
    + split; [done |]. intros H. exfalso.
      apply (H c); [apply list_elem_of_here | by apply clipContains_spec].
    + rewrite IH. split.
      * intros H c' Hc'. apply elem_of_cons in Hc' as [->|Hc']; [|by apply H].
        rewrite <- clipContains_spec. congruence.
      * intros H c' Hc'. apply H. by apply list_elem_of_further.
Qed.

Lemma frameInClips_Some t cs info :
  Timeline.frameInClips t cs = Some info ->
  exists earlier C later,
    cs = earlier ++ C :: later /\
    on_screen t C /\
    (forall c, c ∈ earlier -> ~ on_screen t c) /\
    info = TimelineFrameInfo.mk (Clip.id C) (t - Clip.start C)%Q t.
Proof.
  induction cs as [|c cs IH]; simpl; [done |].
  destruct (Timeline.clipContains t c) eqn:E.
  - intros [= <-]. exists [], c, cs.
    split; [done |]. split; [by apply clipContains_spec |].
    split; [intros c' Hc'; by apply elem_of_nil in Hc' | done].
  - intros H. destruct (IH H) as (earlier & C & later & -> & HC & Hearlier & ->).
    exists (c :: earlier), C, later.
    split; [done |]. split; [done |]. split; [|done].
    intros c' Hc'. apply elem_of_cons in Hc' as [->|Hc']; [|by apply Hearlier].
    rewrite <- clipContains_spec. congruence.
Qed.

Lemma is_video_spec T :
  TrackKind.is_video (Track.kind T) = true <-> Track.kind T = TrackKind.Video.
Proof. destruct (Track.kind T); simpl; split; congruence. Qed.

Lemma frameInTracks_None t ts :
  Timeline.frameInTracks t ts = None <->
  forall T c, T ∈ ts -> Track.kind T = TrackKind.Video ->
              c ∈ Track.clips T -> ~ on_screen t c.
Proof.
  induction ts as [|T ts IH]; simpl.
  - split; [intros _ T c HT; by apply elem_of_nil in HT | done].
  - destruct (TrackKind.is_video (Track.kind T)) eqn:EV; simpl.
    + destruct (Timeline.frameInClips t (Track.clips T)) as [info|] eqn:EC.
      * split; [done |]. intros H. exfalso.
        assert (Timeline.frameInClips t (Track.clips T) = None) as EN;
          [|congruence].
        apply frameInClips_None. intros c Hc.
        apply (H T c); [apply list_elem_of_here | by apply is_video_spec | done].
      * rewrite IH. split.
        -- intros H T' c HT'. apply elem_of_cons in HT' as [->|HT'].
           ++ intros _. revert c. by apply frameInClips_None.
           ++ by apply H.
        -- intros H T' c HT'. apply H. by apply list_elem_of_further.
    + rewrite IH. split.
      * intros H T' c HT'. apply elem_of_cons in HT' as [->|HT'].
        -- intros HV. apply is_video_spec in HV. congruence.
        -- by apply H.
      * intros H T' c HT'. apply H. by apply list_elem_of_further.
Qed.

Lemma frameInTracks_Some t ts info :
  Timeline.frameInTracks t ts = Some info ->
  exists before T after earlier C later,
    ts = before ++ T :: after /\
    Track.kind T = TrackKind.Video /\
    (forall T' c, T' ∈ before -> Track.kind T' = TrackKind.Video ->
                  c ∈ Track.clips T' -> ~ on_screen t c) /\
    Track.clips T = earlier ++ C :: later /\
    on_screen t C /\
    (forall c, c ∈ earlier -> ~ on_screen t c) /\
    info = TimelineFrameInfo.mk (Clip.id C) (t - Clip.start C)%Q t.
Proof.
  induction ts as [|T ts IH]; simpl; [done |].
  destruct (TrackKind.is_video (Track.kind T)) eqn:EV; simpl.
  - destruct (Timeline.frameInClips t (Track.clips T)) as [info'|] eqn:EC.
    + intros [= <-].
      destruct (frameInClips_Some _ _ _ EC)
        as (earlier & C & later & Hcs & HC & Hearlier & ->).
      exists [], T, ts, earlier, C, later.
      split; [done |]. split; [by apply is_video_spec |].
      split; [intros T' c HT'; by apply elem_of_nil in HT' | done].
    + intros H. destruct (IH H)
        as (before & T0 & after & earlier & C & later & -> & HV & Hbefore & Hrest).
      exists (T :: before), T0, after, earlier, C, later.
      split; [done |]. split; [done |]. split; [|done].
      intros T' c HT'. apply elem_of_cons in HT' as [->|HT']; [|by apply Hbefore].
      intros _. revert c. by apply frameInClips_None.
  - intros H. destruct (IH H)
      as (before & T0 & after & earlier & C & later & -> & HV & Hbefore & Hrest).
    exists (T :: before), T0, after, earlier, C, later.
    split; [done |]. split; [done |]. split; [|done].
    intros T' c HT'. apply elem_of_cons in HT' as [->|HT']; [|by apply Hbefore].
    intros HV'. apply is_video_spec in HV'. congruence.
Qed.

(** In a sorted clip list, the first clip on screen starts no later than
    any other clip on screen. *)
Lemma first_on_screen_least_start t earlier C later :
  sorted_by_start (earlier ++ C :: later) ->
  (forall c, c ∈ earlier -> ~ on_screen t c) ->
  forall c, c ∈ earlier ++ C :: later -> on_screen t c ->
            (Clip.start C <= Clip.start c)%Q.
Proof.
  intros Hs Hearlier c Hc Hon.
  apply elem_of_app in Hc as [Hc|Hc]; [by destruct (Hearlier c Hc) |].
  apply elem_of_cons in Hc as [->|Hc]; [lra |].
  apply StronglySorted_app_1_r, StronglySorted_inv in Hs as [_ Hs].
  rewrite Forall_forall in Hs. by apply Hs.
Qed.

(** C9: [frameAt(t)] walks the tracks in declaration order, looks only at
    Video tracks, and answers with the first clip, in the order of the
    track's clip list, that has [start <= t <= endTime], as
    [(id, t - start, t)]; it answers none exactly when no clip of a Video
    track is on screen at [t].  Where the clip list is sorted by [start],
    that first clip has the least [start] among the clips on screen. *)
Theorem C9_frameAt_first_video_clip tl t :
  (Timeline.frameAt tl t = None <->
   forall T c, T ∈ Sequence.tracks (Timeline.sequence tl) ->
               Track.kind T = TrackKind.Video ->
               c ∈ Track.clips T -> ~ on_screen t c) /\
  (forall info, Timeline.frameAt tl t = Some info ->
     exists before T after earlier C later,
       Sequence.tracks (Timeline.sequence tl) = before ++ T :: after /\
       Track.kind T = TrackKind.Video /\
       (forall T' c, T' ∈ before -> Track.kind T' = TrackKind.Video ->
                     c ∈ Track.clips T' -> ~ on_screen t c) /\
       Track.clips T = earlier ++ C :: later /\
       on_screen t C /\
       (forall c, c ∈ earlier -> ~ on_screen t c) /\
       info = TimelineFrameInfo.mk (Clip.id C) (t - Clip.start C)%Q t /\
       (sorted_by_start (Track.clips T) ->
        forall c, c ∈ Track.clips T -> on_screen t c ->
                  (Clip.start C <= Clip.start c)%Q)).
Proof.
  split; [apply frameInTracks_None |].
  intros info H.
  destruct (frameInTracks_Some _ _ _ H)
    as (before & T & after & earlier & C & later
        & Hts & HV & Hbefore & Hcs & HC & Hearlier & ->).
  exists before, T, after, earlier, C, later.
  repeat (split; [done |]).
  rewrite Hcs. intros Hs. by apply first_on_screen_least_start.
Qed.

Lemma C9_frameAt_first_video_clip_witness :
  exists before T after earlier C later,
    Sequence.tracks (Timeline.sequence (run oneClipScript))
      = before ++ T :: after /\
    Track.kind T = TrackKind.Video /\
    (forall T' c, T' ∈ before -> Track.kind T' = TrackKind.Video ->
                  c ∈ Track.clips T' -> ~ on_screen 4 c) /\
    Track.clips T = earlier ++ C :: later /\
    on_screen 4 C /\
    (forall c, c ∈ earlier -> ~ on_screen 4 c) /\
    TimelineFrameInfo.mk "a" 4 4
      = TimelineFrameInfo.mk (Clip.id C) (4 - Clip.start C)%Q 4 /\
    (sorted_by_start (Track.clips T) ->
     forall c, c ∈ Track.clips T -> on_screen 4 c ->
               (Clip.start C <= Clip.start c)%Q).
Proof.
  apply (proj2 (C9_frameAt_first_video_clip (run oneClipScript) 4)).
  vm_compute. reflexivity.
Defined.

(** ** The indices agree with the sequence in every reachable state *)

Lemma indexClips_shape t c cs cs' m :
  map Clip.id cs = map Clip.id cs' ->
  Timeline.indexClips t c cs m = Timeline.indexClips t c cs' m.
Proof.
  revert c cs' m. induction cs as [|x cs IH]; intros c [|x' cs'] m E;
    simpl in *; try done.
  injection E as -> E. by apply IH.
Qed.

Lemma indexTracks_shape t ts ts' mt mc :
  id_shape ts = id_shape ts' ->
  Timeline.indexTracks t ts mt mc = Timeline.indexTracks t ts' mt mc.
Proof.
  revert t ts' mt mc. induction ts as [|T ts IH]; intros t [|T' ts'] mt mc E;
    simpl in *; try done.
  injection E as -> Ec E.
  rewrite (indexClips_shape t 0 _ _ mc Ec). by apply IH.
Qed.

Lemma map_id_alter (f : Clip.t -> Clip.t) i cs :
  (forall c, Clip.id (f c) = Clip.id c) ->
  map Clip.id (alter f i cs) = map Clip.id cs.
Proof.
  intros Hf. revert i. induction cs as [|c cs IH]; intros [|i]; simpl;
    try done.
  - by rewrite Hf.
  - f_equal. apply IH.
Qed.

Lemma id_shape_alterClip loc f s :
  (forall c, Clip.id (f c) = Clip.id c) ->
  id_shape (Sequence.tracks (Sequence.alterClip loc f s))
  = id_shape (Sequence.tracks s).
Proof.
  intros Hf. destruct loc as [ti ci]. simpl.
  generalize (Sequence.tracks s). intros ts. revert ti.
  induction ts as [|T ts IH]; intros [|ti]; simpl; try done.
  - by rewrite map_id_alter.
  - f_equal. apply IH.
Qed.

Lemma indices_agree_rebuildIndices tl :
  indices_agree (Timeline.rebuildIndices tl).
Proof.
  unfold indices_agree, Timeline.rebuildIndices. simpl.
  by destruct (Timeline.indexTracks _ _ _ _).
Qed.

Lemma indices_agree_updateDuration tl :
  indices_agree tl -> indices_agree (Timeline.updateDuration tl).
Proof. done. Qed.

Lemma indices_agree_alterClip tl loc f :
  (forall c, Clip.id (f c) = Clip.id c) ->
  indices_agree tl ->
  indices_agree
    (Timeline.with_sequence (Timeline.pushUndo tl)
       (Sequence.alterClip loc f (Timeline.sequence_ (Timeline.pushUndo tl)))).
Proof.
  intros Hf H. unfold indices_agree in *. simpl.
  rewrite H. symmetry. apply indexTracks_shape.
  by apply (id_shape_alterClip loc f (Timeline.sequence_ tl)).
Qed.

Lemma step_indices_agree tl op :
  indices_agree tl -> indices_agree (step tl op).2.
Proof.
  intros H. destruct op; simpl; [done | ..];
    unfold Timeline.addTrack, Timeline.updateTrack, Timeline.removeTrack,
      Timeline.upsertClip, Timeline.moveClip, Timeline.trimClip,
      Timeline.splitClip, Timeline.rippleDelete;
    repeat case_match; simpl;
    first [ assumption
          | apply indices_agree_rebuildIndices
          | apply indices_agree_updateDuration, indices_agree_rebuildIndices
          | apply indices_agree_updateDuration, indices_agree_alterClip;
            [done | assumption]
          | apply indices_agree_alterClip; [done | assumption] ].
Qed.

Lemma reachable_indices_agree tl : reachable tl -> indices_agree tl.
Proof.
  induction 1 as [|tl op _ IH]; [done | by apply step_indices_agree].
Qed.

(** Every entry of the rebuilt clip index points at a clip of that id. *)
Lemma indexClips_lookup t c cs m k a b :
  Timeline.indexClips t c cs m !! k = Some (a, b) ->
  m !! k = Some (a, b) \/
  (a = t /\ (c <= b)%nat /\
   exists clip, cs !! (b - c)%nat = Some clip /\ Clip.id clip = k).
Proof.
  revert c m. induction cs as [|x cs IH]; intros c m H; simpl in *.
  - by left.
  - destruct (IH _ _ H) as [Hm|(-> & Hle & clip & Hclip & Hid)].
    + destruct (decide (Clip.id x = k)) as [E|E].
      * rewrite E, lookup_insert_eq in Hm. injection Hm as <- <-.
        right. split; [done |]. split; [done |].
        exists x. by rewrite Nat.sub_diag.
      * rewrite lookup_insert_ne in Hm by done. by left.
    + right. split; [done |]. split; [lia |].
      exists clip. split; [|done].
      replace (b - c)%nat with (S (b - S c)) by lia. done.
Qed.

Lemma indexTracks_clip_lookup t ts mt mc k a b :
  (Timeline.indexTracks t ts mt mc).2 !! k = Some (a, b) ->
  mc !! k = Some (a, b) \/
  ((t <= a)%nat /\
   exists T clip, ts !! (a - t)%nat = Some T /\
                  Track.clips T !! b = Some clip /\ Clip.id clip = k).
Proof.
  revert t mt mc. induction ts as [|T ts IH]; intros t mt mc H; simpl in *.
  - by left.
  - destruct (IH _ _ _ H) as [Hm|(Hle & T' & clip & HT' & Hclip & Hid)].
    + destruct (indexClips_lookup _ _ _ _ _ _ _ Hm)
        as [Hm'|(-> & _ & clip & Hclip & Hid)]; [by left |].
      right. split; [done |]. exists T, clip.
      rewrite Nat.sub_diag, Nat.sub_0_r in *. done.
    + right. split; [lia |]. exists T', clip. split; [|done].
      replace (a - t)%nat with (S (a - S t)) by lia. done.
Qed.

Lemma indexTracks_clip_sound tl clipId loc :
  indices_agree tl ->
  Timeline.findClip tl clipId = Some loc ->
  exists T clip,
    Sequence.tracks (Timeline.sequence_ tl) !! loc.1 = Some T /\
    Track.clips T !! loc.2 = Some clip /\ Clip.id clip = clipId.
Proof.
  unfold indices_agree, Timeline.findClip. intros H Hf.
  destruct loc as [a b].
  assert (Timeline.clipIndex_ tl =
          (Timeline.indexTracks 0
             (Sequence.tracks (Timeline.sequence_ tl)) ∅ ∅).2) as E
    by (by rewrite <- H).
  rewrite E in Hf.
  destruct (indexTracks_clip_lookup _ _ _ _ _ _ _ Hf)
    as [Hm|(_ & T & clip & HT & Hclip & Hid)].
  - by rewrite lookup_empty in Hm.
  - rewrite Nat.sub_0_r in HT. by exists T, clip.
Qed.

(** ** Reads after a write through a [Clip*] *)

Lemma clipAt_with_duration s d loc :
  Sequence.clipAt (Sequence.with_duration s d) loc = Sequence.clipAt s loc.
Proof. done. Qed.

Lemma clipAt_alterClip_eq s loc f T c :
  Sequence.tracks s !! loc.1 = Some T ->
  Track.clips T !! loc.2 = Some c ->
  Sequence.clipAt s loc = c /\
  Sequence.clipAt (Sequence.alterClip loc f s) loc = f c.
Proof.
  intros HT Hc. unfold Sequence.clipAt, Sequence.trackAt, Sequence.alterClip.
  simpl. split.
  - rewrite (list_lookup_total_correct _ _ _ HT).
    by apply list_lookup_total_correct.
  - rewrite list_lookup_total_alter_eq by (by eapply lookup_lt_Some).
    rewrite (list_lookup_total_correct _ _ _ HT). simpl.
    rewrite list_lookup_total_alter_eq by (by eapply lookup_lt_Some).
    by rewrite (list_lookup_total_correct _ _ _ Hc).
Qed.

Lemma clipAt_alterClip_ne s loc loc' f :
  loc' <> loc ->
  Sequence.clipAt (Sequence.alterClip loc f s) loc' = Sequence.clipAt s loc'.
Proof.
  destruct loc as [ti ci], loc' as [ti' ci']. intros Hne.
  unfold Sequence.clipAt, Sequence.trackAt, Sequence.alterClip. simpl.
  rewrite list_lookup_total_alter. case_decide as E; [|done].
  destruct E as [-> _]. simpl.
  apply list_lookup_total_alter_ne. congruence.
Qed.

(** ** [trimClip] *)

(** Shortening a clip at its tail cannot create an overlap. *)
Lemma clipOverlaps_shrink other old new :
  Clip.start new = Clip.start old ->
  (Clip.duration new <= Clip.duration old)%Q ->
  clipOverlaps other new = true -> clipOverlaps other old = true.
Proof.
  unfold clipOverlaps, Clip.endTime. intros -> Hd.
  rewrite !dgt_spec.
  destruct (std_min_cases (Clip.start other + Clip.duration other)
              (Clip.start old + Clip.duration new)) as [[-> ?]|[-> ?]];
    destruct (std_min_cases (Clip.start other + Clip.duration other)
                (Clip.start old + Clip.duration old)) as [[-> ?]|[-> ?]];
    lra.
Qed.

(** C8, as amended: for [dStart >= 0] and [dEnd >= 0], a successful
    [trimClip] leaves the clip where it starts and does not lengthen it
    (the new duration is the old one less [dStart] and [dEnd]), so the
    clip overlaps no clip it did not overlap before; every other clip is
    left as it was. *)
Theorem C8_nonnegative_trim_never_extends tl clipId dStart dEnd tl' loc :
  reachable tl ->
  Timeline.findClip tl clipId = Some loc ->
  Timeline.trimClip tl clipId dStart dEnd = (true, tl') ->
  (0 <= dStart)%Q -> (0 <= dEnd)%Q ->
  let old := Sequence.clipAt (Timeline.sequence tl) loc in
  let new := Sequence.clipAt (Timeline.sequence tl') loc in
  Clip.id old = clipId /\ Clip.id new = clipId /\
  Clip.start new = Clip.start old /\
  Clip.duration new = (Clip.duration old - dStart - dEnd)%Q /\
  (Clip.duration new <= Clip.duration old)%Q /\
  (forall other, clipOverlaps other new = true ->
                 clipOverlaps other old = true) /\
  (forall loc', loc' <> loc ->
     Sequence.clipAt (Timeline.sequence tl') loc'
     = Sequence.clipAt (Timeline.sequence tl) loc').
Proof.
  intros Hr Hfind Htrim HdS HdE.
  destruct (indexTracks_clip_sound tl clipId loc
              (reachable_indices_agree tl Hr) Hfind)
    as (T & c & HT & Hc & Hid).
  unfold Timeline.trimClip in Htrim. rewrite Hfind in Htrim.
  destruct (dle _ 0) eqn:Epos; [discriminate |].
  injection Htrim as <-.
  unfold Timeline.sequence. simpl.
  rewrite clipAt_with_duration.
  match goal with
  | |- context [Sequence.alterClip loc ?f _] =>
      destruct (clipAt_alterClip_eq (Timeline.sequence_ tl) loc f T c HT Hc)
        as [Eold Enew]
  end.
  rewrite Eold, Enew in *. simpl.
  assert (std_max 0 (Clip.duration c - dStart - dEnd)
          = (Clip.duration c - dStart - dEnd)%Q) as Emax.
  { destruct (std_max_cases 0 (Clip.duration c - dStart - dEnd))
      as [[E _]|[E _]]; [|done].
    rewrite E in Epos. apply not_true_iff_false in Epos.
    destruct Epos. apply dle_spec. lra. }
  rewrite Emax.
  split; [done |]. split; [done |]. split; [done |]. split; [done |].
  split; [lra |]. split.
  - intros other. apply clipOverlaps_shrink; simpl; [done | lra].
  - intros loc' Hne. rewrite clipAt_with_duration.
    by apply clipAt_alterClip_ne.
Qed.

Lemma C8_nonnegative_trim_never_extends_witness :
  let tl := run abuttingClipsScript in
  let tl' := (Timeline.trimClip tl "c" 1 1).2 in
  let old := Sequence.clipAt (Timeline.sequence tl) (0, 0)%nat in
  let new := Sequence.clipAt (Timeline.sequence tl') (0, 0)%nat in
  Clip.id old = "c" /\ Clip.id new = "c" /\
  Clip.start new = Clip.start old /\
  Clip.duration new = (Clip.duration old - 1 - 1)%Q /\
  (Clip.duration new <= Clip.duration old)%Q /\
  (forall other, clipOverlaps other new = true ->
                 clipOverlaps other old = true) /\
  (forall loc', loc' <> (0, 0)%nat ->
     Sequence.clipAt (Timeline.sequence tl') loc'
     = Sequence.clipAt (Timeline.sequence tl) loc').
Proof.
  apply (C8_nonnegative_trim_never_extends
           (run abuttingClipsScript) "c" 1 1
           (Timeline.trimClip (run abuttingClipsScript) "c" 1 1).2 (0, 0)%nat).
  - apply reachable_run.
  - vm_compute. reflexivity.
  - vm_compute. reflexivity.
  - vm_compute. discriminate.
  - vm_compute. discriminate.
Defined.

(** C8 fails as stated: with [dEnd = -1] the trim succeeds, the clip [c]
    grows from 4 to 5 seconds and now overlaps its neighbour [d] on a
    track that does not allow overlap. *)
Lemma C8_negative_trim_extends :
  let tl := run abuttingClipsScript in
  exists tl',
    Timeline.trimClip tl "c" 0 (-1) = (true, tl') /\
    Timeline.findClip tl "c" = Some (0, 0)%nat /\
    Timeline.findClip tl "d" = Some (0, 1)%nat /\
    Track.allowOverlap (Sequence.trackAt (Timeline.sequence tl') 0) = false /\
    let old := Sequence.clipAt (Timeline.sequence tl) (0, 0)%nat in
    let new := Sequence.clipAt (Timeline.sequence tl') (0, 0)%nat in
    let d := Sequence.clipAt (Timeline.sequence tl') (0, 1)%nat in
    Clip.duration old = 4%Q /\ Clip.duration new = 5%Q /\
    ~ (Clip.duration new <= Clip.duration old)%Q /\
    clipOverlaps d old = false /\ clipOverlaps d new = true.
Proof.
  eexists. split; [vm_compute; reflexivity |].
  repeat (split; [vm_compute; reflexivity |]).
  split; [vm_compute; intros H; by apply H |].
  split; vm_compute; reflexivity.
Qed.

(** ** Failing calls *)

(** Every call other than [splitClip] that returns false hands back the
    timeline it was given: sequence, undo and redo buffers, indices. *)
Lemma failure_leaves_timeline tl op tl' :
  (forall clipId offsetSeconds, op <> SplitClip clipId offsetSeconds) ->
  step tl op = (false, tl') -> tl' = tl.
Proof.
  intros Hns. destruct op; simpl;
    try (by destruct (Hns clipId offsetSeconds));
    unfold Timeline.addTrack, Timeline.updateTrack, Timeline.removeTrack,
      Timeline.upsertClip, Timeline.moveClip, Timeline.trimClip,
      Timeline.rippleDelete;
    intros H; repeat case_match; by simplify_eq.
Qed.

(** C1 on the code: [splitClip] looks the clip's track up only after
    [pushUndo] and after it has rewritten the clip.  On a clip whose
    [trackId] names no track it returns false, yet the clip has lost
    three of its four seconds and the undo buffer has grown by one. *)
Theorem C1_splitClip_failure_not_atomic :
  let before := run strayClipScript in
  let after := (Timeline.splitClip before "a" 1).2 in
  (Timeline.splitClip before "a" 1).1 = false /\
  clipsOnTrack before 0 = [("a", "ghost", 0, 4)%Q] /\
  clipsOnTrack after 0 = [("a", "ghost", 0, 1)%Q] /\
  Timeline.sequence after <> Timeline.sequence before /\
  length (Timeline.undoStack_ before) = 1%nat /\
  length (Timeline.undoStack_ after) = 2%nat.
Proof.
  repeat (split; [vm_compute; reflexivity |]).
  split; [|split; vm_compute; reflexivity].
  vm_compute. discriminate.
Qed.

(** The same failure reached through clip calls only: [moveClip] towards
    [v2], then [removeTrack("v2")], leave [p] with a [trackId] that names
    no track. *)
Lemma splitClip_failure_after_orphaning :
  let before := run orphanedClipScript in
  let after := (Timeline.splitClip before "p" 1).2 in
  (Timeline.splitClip before "p" 1).1 = false /\
  clipsOnTrack before 0 = [("p", "v2", 0, 4)%Q] /\
  clipsOnTrack after 0 = [("p", "v2", 0, 1)%Q] /\
  length (Timeline.undoStack_ after)
  = S (length (Timeline.undoStack_ before)).
Proof. by_evaluation. Qed.

(** ** [moveClip] and [upsertClip] across tracks *)

(** C2 on the code: [moveClip] overwrites the clip where it lies.  After
    the accepted move of scenario S5 the clip [p] is still in the clip
    list of [v1] (position 0), the clip index sends it there and not to
    [v2] (position 1), and its [trackId] is no longer the id of the track
    that holds it. *)
Theorem C2_moveClip_stays_on_source_track :
  let before := run twoTracksScript in
  let after := (Timeline.moveClip before "p" "v2" 3).2 in
  (Timeline.moveClip before "p" "v2" 3).1 = true /\
  Timeline.trackIndex_ after !! "v2" = Some 1%nat /\
  Timeline.clipIndex_ after !! "p" = Some (0, 0)%nat /\
  Track.id (Sequence.trackAt (Timeline.sequence after) 0) = "v1" /\
  clipsOnTrack after 0 = [("p", "v2", 3, 2)%Q] /\
  clipsOnTrack after 1 = [("q", "v2", 1, 2)%Q].
Proof. by_evaluation. Qed.

(** C4 on the code: [upsertClip] passes the clip position of the existing
    clip to [validatePlacement] whatever track that clip lies in.  Here
    [p] lies at position 0 of [v1]; the candidate for [v2] overlaps [q],
    which is at position 0 of [v2] and is skipped, and the call
    succeeds. *)
Theorem C4_upsertClip_skips_foreign_slot :
  let before := run twoTracksScript in
  let candidate := videoClip "p" "v2" 1 2 in
  let after := (Timeline.upsertClip before candidate).2 in
  Timeline.findClip before "p" = Some (0, 0)%nat /\
  Timeline.findTrack before "v2" = Some 1%nat /\
  Track.allowOverlap (Sequence.trackAt (Timeline.sequence before) 1) = false /\
  clipsOnTrack before 1 = [("q", "v2", 1, 2)%Q] /\
  clipOverlaps (Sequence.clipAt (Timeline.sequence before) (1, 0)%nat)
    candidate = true /\
  (Timeline.upsertClip before candidate).1 = true /\
  clipsOnTrack after 0 = [("p", "v2", 1, 2)%Q] /\
  clipsOnTrack after 1 = [("q", "v2", 1, 2)%Q].
Proof. by_evaluation. Qed.

(** ** [rippleDelete] *)

(** C5 on the code: the loop compares against [clip->start], read through
    a pointer into the vector it has just erased from, so it reads the
    clip that slid into the slot and that the loop itself rewrites.  Here
    [x] starts at 0 and lasts 2; [z] started at 5 and must move to 3, but
    after [y] has been moved to 8 the test [5 >= 8] fails and [z] stays.
    The last line gives the starts the specification asks for. *)
Theorem C5_rippleDelete_rereads_start :
  let before := run movedPastScript in
  let after := (Timeline.rippleDelete before "x").2 in
  clipsOnTrack before 0
  = [("x", "v1", 0, 2)%Q; ("y", "v1", 10, 1)%Q; ("z", "v1", 5, 1)%Q] /\
  (Timeline.rippleDelete before "x").1 = true /\
  clipsOnTrack after 0 = [("y", "v1", 8, 1)%Q; ("z", "v1", 5, 1)%Q] /\
  map Clip.start
    (map (rippled 2) [videoClip "y" "v1" 10 1; videoClip "z" "v1" 5 1])
  = [8; 3]%Q.
Proof. by_evaluation. Qed.

(** The same reread on a sorted track: once [y] has been floored at 0,
    [z] at -1 no longer passes the test and is not floored. *)
Lemma rippleDelete_before_zero :
  let before := run beforeZeroScript in
  let after := (Timeline.rippleDelete before "x").2 in
  clipsOnTrack before 0
  = [("x", "v1", -5, 1)%Q; ("y", "v1", -3, 1)%Q; ("z", "v1", -1, 1)%Q] /\
  (Timeline.rippleDelete before "x").1 = true /\
  clipsOnTrack after 0 = [("y", "v1", 0, 1)%Q; ("z", "v1", -1, 1)%Q].
Proof. by_evaluation. Qed.

(** After the move of C2 the track is found through [clip->trackId]:
    [rippleDelete("p")] erases position 0 of [v2], that is [q], and [p]
    survives. *)
Lemma rippleDelete_after_move_erases_other_clip :
  let before := (Timeline.moveClip (run twoTracksScript) "p" "v2" 3).2 in
  let after := (Timeline.rippleDelete before "p").2 in
  (Timeline.rippleDelete before "p").1 = true /\
  clipsOnTrack after 0 = [("p", "v2", 3, 2)%Q] /\
  clipsOnTrack after 1 = [].
Proof. by_evaluation. Qed.

(** ** [rippleDelete] on a sorted track *)

Section RippleShift.
Variables (track ci : nat) (removed : Clip.t) (d : double).

Let f := Timeline.startThroughClip (track, ci) track removed.

Lemma startThroughClip_same cs :
  f cs = match cs !! ci with
         | Some c => Clip.start c
         | None => Clip.start removed
         end.
Proof.
  unfold f, Timeline.startThroughClip. simpl.
  by rewrite bool_decide_eq_true_2.
Qed.

Lemma rippleShift_step n front c rest :
  Timeline.rippleShift (S n) (length front) (front ++ c :: rest) f d
  = Timeline.rippleShift n (S (length front))
      (front ++
       (if dge (Clip.start c) (f (front ++ c :: rest))
        then rippled d c else c) :: rest) f d.
Proof.
  simpl. rewrite list_lookup_total_middle by done.
  destruct (dge _ _); [|done].
  rewrite insert_app_r_alt by done. by rewrite Nat.sub_diag.
Qed.

(** Before the slot: clips that start before what the slot holds stay. *)
Lemma rippleShift_before m early front rest :
  length (front ++ early) = ci ->
  (forall c, c ∈ early -> (Clip.start c < f (front ++ early ++ rest))%Q) ->
  Timeline.rippleShift (length early + m) (length front)
    (front ++ early ++ rest) f d
  = Timeline.rippleShift m ci (front ++ early ++ rest) f d.
Proof.
  revert front. induction early as [|c early IH]; intros front Hlen Hlt.
  - simpl in *. rewrite app_nil_r in Hlen. by rewrite Hlen.
  - change (length (c :: early) + m)%nat with (S (length early + m)).
    change ((c :: early) ++ rest) with (c :: early ++ rest).
    rewrite rippleShift_step.
    assert (dge (Clip.start c) (f (front ++ c :: early ++ rest)) = false)
      as ->.
    { apply not_true_iff_false. rewrite dge_spec.
      specialize (Hlt c (list_elem_of_here _ _)). simpl in Hlt. lra. }
    replace (S (length front)) with (length (front ++ [c]))
      by (rewrite length_app; simpl; lia).
    replace (front ++ c :: early ++ rest)
      with ((front ++ [c]) ++ early ++ rest) in *
      by (by rewrite <- app_assoc).
    apply IH.
    + rewrite <- Hlen, !length_app. simpl. lia.
    + intros c' Hc'. rewrite <- app_assoc.
      apply Hlt. by apply list_elem_of_further.
Qed.

(** After the slot: the slot holds [Y] for good, and every clip that
    starts at or after [Y] is moved. *)
Lemma rippleShift_after late front Y :
  front !! ci = Some Y ->
  (forall c, c ∈ late -> (Clip.start Y <= Clip.start c)%Q) ->
  Timeline.rippleShift (length late) (length front) (front ++ late) f d
  = front ++ map (rippled d) late.
Proof.
  revert front. induction late as [|c late IH]; intros front HY Hle.
  - done.
  - change (length (c :: late)) with (S (length late)).
    rewrite rippleShift_step.
    assert (f (front ++ c :: late) = Clip.start Y) as ->.
    { rewrite startThroughClip_same.
      by rewrite (lookup_app_l_Some _ _ _ _ HY). }
    assert (dge (Clip.start c) (Clip.start Y) = true) as ->.
    { apply dge_spec, Hle, list_elem_of_here. }
    replace (S (length front)) with (length (front ++ [rippled d c]))
      by (rewrite length_app; simpl; lia).
    replace (front ++ rippled d c :: late)
      with ((front ++ [rippled d c]) ++ late)
      by (by rewrite <- app_assoc).
    rewrite IH.
    + by rewrite <- app_assoc.
    + by apply lookup_app_l_Some.
    + intros c' Hc'. apply Hle. by apply list_elem_of_further.
Qed.

(** The whole loop on the erased vector [pre ++ post], the removed clip
    having lain between the two. *)
Lemma rippleShift_sorted pre post :
  length pre = ci ->
  (0 <= Clip.start removed)%Q -> (0 <= d)%Q ->
  (forall c, c ∈ pre -> (Clip.start c < Clip.start removed)%Q) ->
  (forall c, c ∈ post -> (Clip.start removed <= Clip.start c)%Q) ->
  sorted_by_start post ->
  Timeline.rippleShift (length (pre ++ post)) 0 (pre ++ post) f d
  = pre ++ map (rippled d) post.
Proof.
  intros Hlen Hs Hd Hpre Hpost Hsorted.
  rewrite length_app.
  change (Timeline.rippleShift (length pre + length post) 0 (pre ++ post))
    with (Timeline.rippleShift (length pre + length post) (length (@nil Clip.t))
            ([] ++ pre ++ post)).
  rewrite (rippleShift_before (length post) pre [] post); [simpl | |].
  - destruct post as [|Y late]; [done |].
    change (length (Y :: late)) with (S (length late)).
    rewrite <- Hlen. rewrite rippleShift_step.
    assert (f (pre ++ Y :: late) = Clip.start Y) as ->.
    { rewrite startThroughClip_same.
      by rewrite list_lookup_middle. }
    assert (dge (Clip.start Y) (Clip.start Y) = true) as ->
      by (apply dge_spec; lra).
    replace (S (length pre)) with (length (pre ++ [rippled d Y]))
      by (rewrite length_app; simpl; lia).
    replace (pre ++ rippled d Y :: late)
      with ((pre ++ [rippled d Y]) ++ late)
      by (by rewrite <- app_assoc).
    rewrite (rippleShift_after late _ (rippled d Y)).
    + by rewrite <- app_assoc.
    + rewrite <- Hlen. by apply list_lookup_middle.
    + intros c Hc. simpl.
      apply StronglySorted_inv in Hsorted as [_ HY].
      rewrite Forall_forall in HY. specialize (HY c Hc).
      unfold start_le in HY.
      specialize (Hpost Y (list_elem_of_here _ _)).
      destruct (std_max_cases 0 (Clip.start Y - d)) as [[-> ?]|[-> ?]]; lra.
  - done.
  - intros c Hc. simpl. rewrite startThroughClip_same.
    specialize (Hpre c Hc).
    destruct ((pre ++ post) !! ci) as [Y|] eqn:E; [|done].
    rewrite lookup_app_r in E by lia.
    apply list_elem_of_lookup_2 in E. specialize (Hpost Y E). lra.
Qed.
End RippleShift.

Lemma alter_as_insert {A} (g : A -> A) i (l : list A) x :
  l !! i = Some x -> alter g i l = <[i := g x]> l.
Proof.
  revert i. induction l as [|y l IH]; intros [|i] H; simpl in *; try done.
  - by injection H as ->.
  - f_equal. by apply IH.
Qed.

(** Where the removed clip [X] names the track that holds it, lies behind
    the clips that start before it and in front of a sorted run of clips
    that start no earlier, and neither its [start] nor its [duration] is
    negative, [rippleDelete] does what the specification says: [X] is
    gone, the clips behind it have moved by its duration (floored at 0),
    and nothing else in the sequence has changed. *)
Lemma rippleDelete_on_sorted_track tl clipId ti T pre X post :
  Timeline.findClip tl clipId = Some (ti, length pre) ->
  Sequence.tracks (Timeline.sequence tl) !! ti = Some T ->
  Track.clips T = pre ++ X :: post ->
  Timeline.findTrack tl (Clip.trackId X) = Some ti ->
  (0 <= Clip.start X)%Q -> (0 <= Clip.duration X)%Q ->
  (forall c, c ∈ pre -> (Clip.start c < Clip.start X)%Q) ->
  (forall c, c ∈ post -> (Clip.start X <= Clip.start c)%Q) ->
  sorted_by_start post ->
  exists tl',
    Timeline.rippleDelete tl clipId = (true, tl') /\
    Sequence.tracks (Timeline.sequence tl')
    = <[ti := Track.with_clips T
                (pre ++ map (rippled (Clip.duration X)) post)]>
        (Sequence.tracks (Timeline.sequence tl)).
Proof.
  unfold Timeline.sequence.
  intros Hfind HT Hclips Htrack Hs Hd Hpre Hpost Hsorted.
  assert (Sequence.trackAt (Timeline.sequence_ tl) ti = T) as ET
    by (by apply list_lookup_total_correct).
  assert (Sequence.clipAt (Timeline.sequence_ tl) (ti, length pre) = X) as EX.
  { unfold Sequence.clipAt. simpl. rewrite ET, Hclips.
    by apply list_lookup_total_middle. }
  unfold Timeline.rippleDelete. rewrite Hfind, EX, Htrack.
  eexists. split; [reflexivity |]. simpl.
  rewrite ET, Hclips, delete_middle.
  rewrite (rippleShift_sorted ti (length pre) X (Clip.duration X) pre post)
    by done.
  by rewrite (alter_as_insert _ ti _ T HT).
Qed.

(** ** Order and identifiers *)

Lemma two_clips_unsorted a b :
  (Clip.start b < Clip.start a)%Q -> ~ sorted_by_start [a; b].
Proof.
  intros Hlt Hs. apply StronglySorted_inv in Hs as [_ HF].
  apply Forall_cons in HF as [Hle _]. unfold start_le in Hle. lra.
Qed.

(** C6 on the code: [moveClip] does not sort.  Moving [a] from 0 to 5 on
    its own track leaves it in front of [b], which starts at 2. *)
Theorem C6_moveClip_leaves_track_unsorted :
  let before := run twoClipsScript in
  let after := (Timeline.moveClip before "a" "v1" 5).2 in
  (Timeline.moveClip before "a" "v1" 5).1 = true /\
  clipsOnTrack before 0 = [("a", "v1", 0, 1)%Q; ("b", "v1", 2, 1)%Q] /\
  clipsOnTrack after 0 = [("a", "v1", 5, 1)%Q; ("b", "v1", 2, 1)%Q] /\
  ~ sorted_by_start
      (Track.clips (Sequence.trackAt (Timeline.sequence after) 0)).
Proof.
  repeat (split; [vm_compute; reflexivity |]).
  apply (two_clips_unsorted (videoClip "a" "v1" 5 1) (videoClip "b" "v1" 2 1)).
  vm_compute. reflexivity.
Qed.

(** [updateTrack] stores the clip list of the caller in the order given. *)
Lemma updateTrack_keeps_caller_order :
  let before := run twoClipsScript in
  let supplied :=
    videoTrack "v1" [videoClip "b" "v1" 2 1; videoClip "a" "v1" 0 1] in
  let after := (Timeline.updateTrack before supplied).2 in
  (Timeline.updateTrack before supplied).1 = true /\
  clipsOnTrack after 0 = [("b", "v1", 2, 1)%Q; ("a", "v1", 0, 1)%Q] /\
  ~ sorted_by_start
      (Track.clips (Sequence.trackAt (Timeline.sequence after) 0)).
Proof.
  repeat (split; [vm_compute; reflexivity |]).
  apply (two_clips_unsorted (videoClip "b" "v1" 2 1) (videoClip "a" "v1" 0 1)).
  vm_compute. reflexivity.
Qed.

(** C7 on the code: [splitClip] appends "_b" without looking the new id
    up.  With a clip [a_b] already on the track, splitting [a] leaves two
    clips of that id, and the clip index keeps the later one only. *)
Theorem C7_splitClip_duplicates_clip_id :
  let before := run suffixTakenScript in
  let after := (Timeline.splitClip before "a" 2).2 in
  map Clip.id (all_clips (Timeline.sequence before)) = ["a"; "a_b"] /\
  (Timeline.splitClip before "a" 2).1 = true /\
  clipsOnTrack after 0
  = [("a", "v1", 0, 2)%Q; ("a_b", "v1", 2, 2)%Q; ("a_b", "v1", 10, 1)%Q] /\
  ~ NoDup (map Clip.id (all_clips (Timeline.sequence after))) /\
  Timeline.clipIndex_ after !! "a_b" = Some (0, 2)%nat.
Proof.
  repeat (split; [vm_compute; reflexivity |]).
  split; [|vm_compute; reflexivity].
  replace (map Clip.id _) with ["a"; "a_b"; "a_b"] by (vm_compute; reflexivity).
  intros H. apply NoDup_cons in H as [_ H]. apply NoDup_cons in H as [H _].
  apply H, list_elem_of_here.
Qed.

(** ** [std::sort] as modelled *)

Lemma sort_insert_Permutation x l : sort_insert x l ≡ₚ x :: l.
Proof.
  induction l as [|y l IH]; simpl; [done |].
  destruct (dlt (Clip.start y) (Clip.start x)); [|done].
  rewrite IH. apply Permutation_swap.
Qed.

Lemma std_sort_Permutation l : std_sort l ≡ₚ l.
Proof.
  induction l as [|x l IH]; simpl; [done |].
  by rewrite sort_insert_Permutation, IH.
Qed.

Lemma sort_insert_sorted x l :
  sorted_by_start l -> sorted_by_start (sort_insert x l).
Proof.
  unfold sorted_by_start. induction 1 as [|y l Hs IH Hy]; simpl.
  - by repeat constructor.
  - destruct (dlt (Clip.start y) (Clip.start x)) eqn:E.
    + apply dlt_spec in E. constructor; [done |].
      rewrite sort_insert_Permutation. constructor; [|done].
      unfold start_le. lra.
    + apply dlt_false in E. constructor; [by constructor |].
      constructor; [done |].
      eapply Forall_impl; [exact Hy |]. unfold start_le. intros z Hz. lra.
Qed.

Lemma std_sort_sorted l : sorted_by_start (std_sort l).
Proof.
  induction l as [|x l IH]; simpl; [constructor | by apply sort_insert_sorted].
Qed.

(** After a successful [upsertClip] the track named by the clip is sorted
    by [start]. *)
Lemma upsertClip_sorts_target tl clip tl' track :
  Timeline.findTrack tl (Clip.trackId clip) = Some track ->
  Timeline.upsertClip tl clip = (true, tl') ->
  sorted_by_start
    (Track.clips (Sequence.trackAt (Timeline.sequence tl') track)).
Proof.
  unfold Timeline.upsertClip. intros ->.
  assert (forall ts : list Track.t,
            sorted_by_start
              (Track.clips (alter Timeline.sortTrack track ts !!! track)))
    as Hsorted.
  { intros ts. rewrite list_lookup_total_alter. case_decide.
    - apply std_sort_sorted.
    - rewrite list_lookup_total_alt.
      destruct (ts !! track) eqn:E; [|constructor].
      apply lookup_lt_Some in E. naive_solver. }
  intros H. repeat case_match; simplify_eq; apply Hsorted.
Qed.

(** ** [validatePlacement] inside [upsertClip] *)

Lemma placementFree_overlap i cs candidate ignoreIndex j c :
  cs !! j = Some c ->
  clipOverlaps c candidate = true ->
  ignoreIndex <> Some (i + j)%nat ->
  Timeline.placementFree i cs candidate ignoreIndex = false.
Proof.
  revert i j. induction cs as [|x cs IH]; intros i [|j] Hj Hov Hne;
    simpl in *; try done.
  - injection Hj as ->. rewrite Nat.add_0_r in Hne.
    rewrite bool_decide_eq_false_2 by done. by rewrite Hov.
  - assert (Timeline.placementFree (S i) cs candidate ignoreIndex = false)
      as E.
    { apply (IH (S i) j); [done | done |].
      by replace (S i + j)%nat with (i + S j)%nat by lia. }
    rewrite E. by repeat case_match.
Qed.

(** [upsertClip] refuses a candidate that overlaps a clip of a non-overlap
    target track, unless that clip sits at the clip position of the
    existing clip of the same id, in whatever track that one lies. *)
Lemma upsertClip_rejects_overlap tl clip track j c :
  Timeline.findTrack tl (Clip.trackId clip) = Some track ->
  Track.allowOverlap (Sequence.trackAt (Timeline.sequence tl) track) = false ->
  Track.clips (Sequence.trackAt (Timeline.sequence tl) track) !! j = Some c ->
  clipOverlaps c clip = true ->
  (forall existing, Timeline.findClip tl (Clip.id clip) = Some existing ->
                    existing.2 <> j) ->
  Timeline.upsertClip tl clip = (false, tl).
Proof.
  unfold Timeline.upsertClip, Timeline.findClip, Timeline.validatePlacement,
    Timeline.sequence.
  intros -> -> Hj Hov Hex.
  destruct (Timeline.clipIndex_ tl !! Clip.id clip) as [existing|] eqn:E.
  - rewrite (placementFree_overlap 0 _ clip (Some existing.2) j c Hj Hov);
      [done |].
    simpl. intros [= Heq]. by apply (Hex existing).
  - by rewrite (placementFree_overlap 0 _ clip None j c Hj Hov).
Qed.

(** ** The scenarios of the specification *)

(** S1: the overlapping clip [b] is refused and nothing changes. *)
Example scenario_S1 :
  let tl := run oneClipScript in
  Timeline.upsertClip tl (videoClip "b" "v1" 3 4) = (false, tl) /\
  Timeline.duration tl = 5%Q /\
  Timeline.frameAt tl 4 = Some (TimelineFrameInfo.mk "a" 4 4).
Proof. by_evaluation. Qed.

(** S2: the split keeps the total duration and the halves abut. *)
Example scenario_S2 :
  let tl := (Timeline.splitClip (run oneClipScript) "a" 2).2 in
  (Timeline.splitClip (run oneClipScript) "a" 2).1 = true /\
  clipsOnTrack tl 0 = [("a", "v1", 0, 2)%Q; ("a_b", "v1", 2, 3)%Q] /\
  Timeline.duration tl = 5%Q /\
  Timeline.frameAt tl 2 = Some (TimelineFrameInfo.mk "a" 2 2).
Proof. by_evaluation. Qed.

(** S3: deleting the first of three abutting clips closes the gap. *)
Example scenario_S3 :
  let before :=
    run [AddTrack (videoTrack "v1" []);
         UpsertClip (videoClip "x" "v1" 0 2);
         UpsertClip (videoClip "y" "v1" 2 3);
         UpsertClip (videoClip "z" "v1" 5 1)] in
  let tl := (Timeline.rippleDelete before "x").2 in
  (Timeline.rippleDelete before "x").1 = true /\
  clipsOnTrack tl 0 = [("y", "v1", 0, 3)%Q; ("z", "v1", 3, 1)%Q] /\
  Timeline.duration tl = 4%Q.
Proof. by_evaluation. Qed.

(** S4: a trim by (1, 1), then a trim that would leave nothing. *)
Example scenario_S4 :
  let before :=
    run [AddTrack (videoTrack "v1" []); UpsertClip (videoClip "c" "v1" 0 4)] in
  let tl := (Timeline.trimClip before "c" 1 1).2 in
  let c := Sequence.clipAt (Timeline.sequence tl) (0, 0)%nat in
  (Timeline.trimClip before "c" 1 1).1 = true /\
  (Clip.duration c, Clip.trimStart c, Clip.trimEnd c, Clip.start c)
  = (2, 1, 1, 0)%Q /\
  Timeline.trimClip tl "c" 5 0 = (false, tl).
Proof. by_evaluation. Qed.

(** ** Track identifiers stay unique *)

Lemma indexTracks_track_lookup t ts mt mc k a :
  (Timeline.indexTracks t ts mt mc).1 !! k = Some a ->
  mt !! k = Some a \/
  ((t <= a)%nat /\
   exists T, ts !! (a - t)%nat = Some T /\ Track.id T = k).
Proof.
  revert t mt mc. induction ts as [|T ts IH]; intros t mt mc H; simpl in *.
  - by left.
  - destruct (IH _ _ _ H) as [Hm|(Hle & T' & HT' & Hid)].
    + destruct (decide (Track.id T = k)) as [E|E].
      * rewrite E, lookup_insert_eq in Hm. injection Hm as <-.
        right. split; [done |]. exists T. by rewrite Nat.sub_diag.
      * rewrite lookup_insert_ne in Hm by done. by left.
    + right. split; [lia |]. exists T'. split; [|done].
      replace (a - t)%nat with (S (a - S t)) by lia. done.
Qed.

Lemma indexTracks_track_absent t ts mt mc k :
  (Timeline.indexTracks t ts mt mc).1 !! k = None ->
  mt !! k = None /\ k ∉ map Track.id ts.
Proof.
  revert t mt mc. induction ts as [|T ts IH]; intros t mt mc H; simpl in *.
  - split; [done | apply not_elem_of_nil].
  - destruct (IH _ _ _ H) as [Hm Hnot].
    apply lookup_insert_None in Hm as [Hm Hne].
    split; [done |]. apply not_elem_of_cons. by split.
Qed.

Lemma findTrack_sound tl trackId pos :
  indices_agree tl ->
  Timeline.findTrack tl trackId = Some pos ->
  exists T, Sequence.tracks (Timeline.sequence_ tl) !! pos = Some T /\
            Track.id T = trackId.
Proof.
  unfold indices_agree, Timeline.findTrack. intros H Hf.
  assert (Timeline.trackIndex_ tl =
          (Timeline.indexTracks 0
             (Sequence.tracks (Timeline.sequence_ tl)) ∅ ∅).1) as E
    by (by rewrite <- H).
  rewrite E in Hf.
  destruct (indexTracks_track_lookup _ _ _ _ _ _ Hf) as [Hm|(_ & T & HT & Hid)].
  - by rewrite lookup_empty in Hm.
  - rewrite Nat.sub_0_r in HT. by exists T.
Qed.

Lemma findTrack_absent tl trackId :
  indices_agree tl ->
  Timeline.findTrack tl trackId = None ->
  trackId ∉ map Track.id (Sequence.tracks (Timeline.sequence_ tl)).
Proof.
  unfold indices_agree, Timeline.findTrack. intros H Hf.
  assert (Timeline.trackIndex_ tl =
          (Timeline.indexTracks 0
             (Sequence.tracks (Timeline.sequence_ tl)) ∅ ∅).1) as E
    by (by rewrite <- H).
  rewrite E in Hf. by apply indexTracks_track_absent in Hf as [_ ?].
Qed.

Lemma map_track_id_alter (f : Track.t -> Track.t) i ts :
  (forall T, ts !! i = Some T -> Track.id (f T) = Track.id T) ->
  map Track.id (alter f i ts) = map Track.id ts.
Proof.
  revert i. induction ts as [|T ts IH]; intros [|i] Hf; simpl; try done.
  - by rewrite (Hf T).
  - f_equal. by apply IH.
Qed.

Lemma map_track_id_delete i (ts : list Track.t) :
  map Track.id (delete i ts) = delete i (map Track.id ts).
Proof.
  revert i. induction ts as [|T ts IH]; intros [|i]; simpl; try done.
  f_equal. apply IH.
Qed.

Lemma step_track_ids_unique tl op :
  indices_agree tl -> track_ids_unique tl -> track_ids_unique (step tl op).2.
Proof.
  unfold track_ids_unique, Timeline.sequence. intros Hagree Hu.
  destruct op; simpl; [done | ..].
  - (* addTrack *)
    unfold Timeline.addTrack.
    destruct (Timeline.trackIndex_ tl !! Track.id track) eqn:E; [done |].
    simpl. rewrite map_app. apply NoDup_app. split; [done |].
    split; [|apply NoDup_singleton].
    intros x Hx Hx'. simpl in Hx'. apply list_elem_of_singleton in Hx' as ->.
    by apply (findTrack_absent tl (Track.id track) Hagree).
  - (* updateTrack *)
    unfold Timeline.updateTrack.
    destruct (Timeline.findTrack tl (Track.id track)) as [pos|] eqn:E;
      [|done].
    destruct (findTrack_sound _ _ _ Hagree E) as (T & HT & Hid).
    simpl. rewrite map_track_id_alter; [done |].
    intros T' HT'. congruence.
  - (* removeTrack *)
    unfold Timeline.removeTrack.
    destruct (Timeline.trackIndex_ tl !! trackId); [|done].
    simpl. rewrite map_track_id_delete.
    eapply sublist_NoDup; [done | apply sublist_delete].
  - unfold Timeline.upsertClip. repeat case_match; simpl;
      rewrite ?map_track_id_alter by done; done.
  - unfold Timeline.moveClip. repeat case_match; simpl;
      rewrite ?map_track_id_alter by done; done.
  - unfold Timeline.trimClip. repeat case_match; simpl;
      rewrite ?map_track_id_alter by done; done.
  - unfold Timeline.splitClip. repeat case_match; simpl;
      rewrite ?map_track_id_alter by done; done.
  - unfold Timeline.rippleDelete. repeat case_match; simpl;
      rewrite ?map_track_id_alter by done; done.
Qed.

(** In every reachable state the track identifiers are pairwise
    different: [addTrack] refuses an id in use and no other call changes
    the id of a track. *)
Lemma reachable_track_ids_unique tl : reachable tl -> track_ids_unique tl.
Proof.
  induction 1 as [|tl op Hr IH]; [apply NoDup_nil_2 |].
  apply step_track_ids_unique; [by apply reachable_indices_agree | done].
Qed.

(** * Further properties of the code *)

(** ** The names of the kinds *)

(** [clipKindFromString] reads back what [clipKindToString] writes, for
    every kind.  The other way round only the three names survive: any
    other string is read as Video and written back as the name of
    Video. *)
Theorem X_clipKind_names :
  (forall k, clipKindFromString (clipKindToString k) = k) /\
  (forall s, clipKindToString (clipKindFromString s) = s <->
             s ∈ ["video"; "audio"; "image"]).
Proof.
  split; [by intros [] |].
  intros s. rewrite !elem_of_cons, elem_of_nil. unfold clipKindFromString.
  destruct (String.eqb_spec s "audio") as [->|Ha]; [simpl; tauto |].
  destruct (String.eqb_spec s "image") as [->|Hi]; [simpl; tauto |].
  simpl. split; [auto | intros [?|[?|[?|[]]]]; congruence].
Qed.

(** [trackKindFromString] reads back what [trackKindToString] writes, for
    every kind.  The other way round only the four names survive: any
    other string is read as Video and written back as the name of
    Video. *)
Theorem X_trackKind_names :
  (forall k, trackKindFromString (trackKindToString k) = k) /\
  (forall s, trackKindToString (trackKindFromString s) = s <->
             s ∈ ["video"; "audio"; "overlay"; "fx"]).
Proof.
  split; [by intros [] |].
  intros s. rewrite !elem_of_cons, elem_of_nil. unfold trackKindFromString.
  destruct (String.eqb_spec s "audio") as [->|Ha]; [simpl; tauto |].
  destruct (String.eqb_spec s "overlay") as [->|Ho]; [simpl; tauto |].
  destruct (String.eqb_spec s "fx") as [->|Hf]; [simpl; tauto |].
  simpl. split; [auto | intros [?|[?|[?|[?|[]]]]]; congruence].
Qed.

(** ** [escape] *)

Lemma escape_cons_cases c rest :
  (c = dquote /\
   escape (String c rest) = String backslash (String dquote (escape rest))) \/
  (c = backslash /\
   escape (String c rest)
   = String backslash (String backslash (escape rest))) \/
  (c = linefeed /\
   escape (String c rest)
   = String backslash (String "n"%char (escape rest))) \/
  (plain c /\ escape (String c rest) = String c (escape rest)).
Proof.
  unfold plain. simpl. unfold escapeChar.
  destruct (Ascii.eqb_spec c dquote) as [->|Hq]; [by left |].
  destruct (Ascii.eqb_spec c backslash) as [->|Hb]; [by right; left |].
  destruct (Ascii.eqb_spec c linefeed) as [->|Hl]; [by right; right; left |].
  by right; right; right.
Qed.

Lemma escape_length_lower s : (String.length s <= String.length (escape s))%nat.
Proof.
  induction s as [|c r IH]; [done |].
  destruct (escape_cons_cases c r) as [[_ ->]|[[_ ->]|[[_ ->]|[_ ->]]]];
    simpl; lia.
Qed.

Lemma escape_inj s1 s2 : escape s1 = escape s2 -> s1 = s2.
Proof.
  revert s2. induction s1 as [|c1 r1 IH]; intros [|c2 r2].
  - done.
  - destruct (escape_cons_cases c2 r2) as [[_ ->]|[[_ ->]|[[_ ->]|[_ ->]]]];
      discriminate.
  - destruct (escape_cons_cases c1 r1) as [[_ ->]|[[_ ->]|[[_ ->]|[_ ->]]]];
      discriminate.
  - destruct (escape_cons_cases c1 r1)
      as [[-> ->]|[[-> ->]|[[-> ->]|[(Hq1 & Hb1 & Hl1) ->]]]];
      destruct (escape_cons_cases c2 r2)
        as [[-> ->]|[[-> ->]|[[-> ->]|[(Hq2 & Hb2 & Hl2) ->]]]];
      intros H; injection H; intros; subst;
      try discriminate; try congruence;
      f_equal; by apply IH.
Qed.

(** [escape] loses nothing: two different strings have different
    escaped forms. *)
Theorem X_escape_injective s1 s2 : s1 <> s2 -> escape s1 <> escape s2.
Proof. intros Hne E. by apply Hne, escape_inj. Qed.

Lemma X_escape_injective_witness :
  escape (String dquote EmptyString) <> escape (String backslash EmptyString).
Proof.
  apply (X_escape_injective (String dquote EmptyString)
           (String backslash EmptyString)).
  discriminate.
Defined.

(** The escaped form is at least as long as the string and at most twice
    as long; it is the string itself exactly when the string holds no
    double quote, backslash or line feed; and it never holds a line
    feed. *)
Theorem X_escape_shape s :
  (String.length s <= String.length (escape s) <= 2 * String.length s)%nat /\
  (escape s = s <-> Forall plain (String.list_ascii_of_string s)) /\
  Forall (fun c => c <> linefeed) (String.list_ascii_of_string (escape s)).
Proof.
  split; [split; [apply escape_length_lower |] | split].
  - induction s as [|c r IH]; [done |].
    destruct (escape_cons_cases c r) as [[_ ->]|[[_ ->]|[[_ ->]|[_ ->]]]];
      simpl; lia.
  - induction s as [|c r IH]; [done |].
    simpl String.list_ascii_of_string.
    rewrite Forall_cons, <- IH.
    pose proof (escape_length_lower r) as Hlen.
    destruct (escape_cons_cases c r)
      as [[-> ->]|[[-> ->]|[[-> ->]|[Hp ->]]]].
    + split; [intros [= ?] | intros [(? & _) _]]; done.
    + split; [intros [= E] | intros [(_ & ? & _) _]; done].
      apply (f_equal String.length) in E. simpl in E. lia.
    + split; [intros [= ?] | intros [(_ & _ & ?) _]]; done.
    + split; [intros [= E]; by rewrite E | intros [_ ->]; done].
  - induction s as [|c r IH]; [constructor |].
    destruct (escape_cons_cases c r)
      as [[-> ->]|[[-> ->]|[[-> ->]|[(_ & _ & Hl) ->]]]]; simpl;
      repeat (constructor; [done |]); done.
Qed.

(** ** [Compositor::compose] *)



Lemma firstOnScreen_frameInClips t cs :
  Compositor.firstOnScreen t cs
  = TimelineFrameInfo.clipId <$> Timeline.frameInClips t cs.
Proof.
  induction cs as [|c cs IH]; simpl; [done |].
  fold (Timeline.clipContains t c).
  by destruct (Timeline.clipContains t c).
Qed.

Lemma composeTracks_omap t ts acc :
  Compositor.composeTracks t ts acc = acc ++ omap (layerAt t) ts.
Proof.
  revert acc. induction ts as [|T ts IH]; intros acc; simpl.
  - by rewrite app_nil_r.
  - unfold layerAt at 1.
    destruct (Track.kind T); try apply IH;
      destruct (Compositor.firstOnScreen t (Track.clips T));
      rewrite IH; by rewrite <- ?app_assoc.
Qed.


(** The clip that [frameAt] reports is on the stack of [compose] for the
    same time: a Video track is not an Audio track, and both loops pick
    the first clip on screen of a track. *)
Theorem X_frameAt_in_compose tl t info :
  Timeline.frameAt tl t = Some info ->
  TimelineFrameInfo.clipId info
  ∈ CompositorFrame.clipStack (Compositor.compose (Timeline.sequence tl) t).
Proof.
  unfold Timeline.frameAt, Timeline.sequence. simpl.
  rewrite composeTracks_omap. simpl.
  induction (Sequence.tracks (Timeline.sequence_ tl)) as [|T ts IH]; simpl;
    [done |].
  unfold layerAt at 1. rewrite firstOnScreen_frameInClips.
  destruct (Track.kind T) eqn:EK; simpl.
  - destruct (Timeline.frameInClips t (Track.clips T)) as [info'|]; simpl.
    + intros [= ->]. apply list_elem_of_here.
    + done.
  - done.
  - intros H. destruct (Timeline.frameInClips t (Track.clips T)); simpl;
      [apply list_elem_of_further |]; by apply IH.
  - intros H. destruct (Timeline.frameInClips t (Track.clips T)); simpl;
      [apply list_elem_of_further |]; by apply IH.
Qed.

Lemma X_frameAt_in_compose_witness :
  "a" ∈ CompositorFrame.clipStack
          (Compositor.compose (Timeline.sequence (run oneClipScript)) 4).
Proof.
  apply (X_frameAt_in_compose (run oneClipScript) 4
           (TimelineFrameInfo.mk "a" 4 4)).
  vm_compute. reflexivity.
Defined.

(** ** [EffectsProcessor::evaluate] *)

Lemma foldl_snoc_map {A B} (g : A -> B) (l : list A) (acc : list B) :
  foldl (fun response entry => response ++ [g entry]) acc l = acc ++ map g l.
Proof.
  revert acc. induction l as [|x l IH]; intros acc; simpl.
  - by rewrite app_nil_r.
  - rewrite IH. by rewrite <- app_assoc.
Qed.

Lemma applyEffect_map std_sin ep effect time :
  EffectsProcessor.applyEffect std_sin ep effect time
  = map (fun entry : string * double =>
           (entry.2 *
            (if EffectsProcessor.simdEnabled_ ep
             then std_sin (time * (1 # 2)) else 1))%Q)
      (map_to_list (Effect.params effect)).
Proof. unfold EffectsProcessor.applyEffect. by rewrite foldl_snoc_map. Qed.

Lemma evaluate_values std_sin ep effects time acc :
  foldl
    (fun values effect =>
       if negb (Effect.enabled effect) then values
       else values ++ EffectsProcessor.applyEffect std_sin ep effect time)
    acc effects
  = acc ++
    concat (map (fun effect =>
                   if Effect.enabled effect
                   then EffectsProcessor.applyEffect std_sin ep effect time
                   else []) effects).
Proof.
  revert acc. induction effects as [|e es IH]; intros acc; simpl.
  - by rewrite app_nil_r.
  - rewrite IH. destruct (Effect.enabled e); simpl; [|done].
    by rewrite <- app_assoc.
Qed.

(** Whatever [std::sin] returns and whether or not the modulation is on,
    [evaluate] copies the clip id and the time and emits one value for
    each parameter of each enabled effect; a disabled effect emits
    nothing. *)
Theorem X_evaluate_count std_sin ep clip t :
  let evaluation := EffectsProcessor.evaluate std_sin ep clip t in
  EffectEvaluation.clipId evaluation = Clip.id clip /\
  EffectEvaluation.time evaluation = t /\
  length (EffectEvaluation.values evaluation)
  = sum_list (map paramCount (Clip.effects clip)).
Proof.
  simpl. split; [done |]. split; [done |].
  rewrite evaluate_values. simpl.
  induction (Clip.effects clip) as [|e es IH]; simpl; [done |].
  rewrite length_app, IH. f_equal. unfold paramCount.
  destruct (Effect.enabled e); [|done].
  by rewrite applyEffect_map, length_map, length_map_to_list.
Qed.

(** With the modulation switched off the values are the magnitudes of the
    parameters of the enabled effects, each times 1: [std::sin] is not
    consulted. *)
Theorem X_evaluate_identity std_sin ep clip t v :
  v ∈ EffectEvaluation.values
        (EffectsProcessor.evaluate std_sin
           (EffectsProcessor.setSimdEnabled ep false) clip t)
  <->
  exists effect name magnitude,
    effect ∈ Clip.effects clip /\ Effect.enabled effect = true /\
    Effect.params effect !! name = Some magnitude /\
    v = (magnitude * 1)%Q.
Proof.
  simpl. rewrite evaluate_values. simpl.
  rewrite list_elem_of_In, in_concat. split.
  - intros (vs & Hvs & Hv). apply in_map_iff in Hvs as (e & <- & He).
    apply list_elem_of_In in He.
    destruct (Effect.enabled e) eqn:Een; [|done].
    rewrite applyEffect_map in Hv. simpl in Hv.
    apply in_map_iff in Hv as ([name m] & <- & Hin).
    apply list_elem_of_In, elem_of_map_to_list in Hin.
    by exists e, name, m.
  - intros (e & name & m & He & Een & Hm & ->).
    exists (EffectsProcessor.applyEffect std_sin
              (EffectsProcessor.setSimdEnabled ep false) e t).
    split.
    + apply in_map_iff. exists e. rewrite Een.
      split; [done | by apply list_elem_of_In].
    + rewrite applyEffect_map. simpl.
      apply in_map_iff. exists (name, m). split; [done |].
      by apply list_elem_of_In, elem_of_map_to_list.
Qed.

(** ** The indices as lookup tables *)

Lemma indexClips_is_Some t c cs m k :
  is_Some (m !! k) \/ k ∈ map Clip.id cs ->
  is_Some (Timeline.indexClips t c cs m !! k).
Proof.
  revert c m. induction cs as [|x cs IH]; intros c m H; simpl in *.
  - destruct H as [H|H]; [done | by apply elem_of_nil in H].
  - apply IH. destruct H as [H|H].
    + left. destruct (decide (Clip.id x = k)) as [->|Hne].
      * rewrite lookup_insert_eq. by eexists.
      * by rewrite lookup_insert_ne.
    + apply elem_of_cons in H as [->|H]; [|by right].
      left. rewrite lookup_insert_eq. by eexists.
Qed.

Lemma indexTracks_clip_is_Some t ts mt mc k :
  is_Some (mc !! k) \/
  (exists T c, T ∈ ts /\ c ∈ Track.clips T /\ Clip.id c = k) ->
  is_Some ((Timeline.indexTracks t ts mt mc).2 !! k).
Proof.
  revert t mt mc. induction ts as [|T ts IH]; intros t mt mc H; simpl in *.
  - destruct H as [H|(T & c & HT & _)]; [done | by apply elem_of_nil in HT].
  - apply IH. destruct H as [H|(T' & c & HT' & Hc & Hid)].
    + left. apply indexClips_is_Some. by left.
    + apply elem_of_cons in HT' as [->|HT'].
      * left. apply indexClips_is_Some. right.
        apply list_elem_of_In, in_map_iff. exists c.
        split; [done | by apply list_elem_of_In].
      * right. by exists T', c.
Qed.

Lemma indexTracks_track_keep t ts mt mc k :
  k ∉ map Track.id ts ->
  (Timeline.indexTracks t ts mt mc).1 !! k = mt !! k.
Proof.
  revert t mt mc. induction ts as [|T ts IH]; intros t mt mc H; simpl in *.
  - done.
  - apply not_elem_of_cons in H as [Hne Hnot].
    rewrite IH by done. by rewrite lookup_insert_ne.
Qed.

Lemma indexTracks_track_at t ts mt mc i T :
  NoDup (map Track.id ts) ->
  ts !! i = Some T ->
  (Timeline.indexTracks t ts mt mc).1 !! Track.id T = Some (t + i)%nat.
Proof.
  revert t mt mc i. induction ts as [|T' ts IH]; intros t mt mc [|i] Hu HT;
    simpl in *; try done.
  - injection HT as ->. apply NoDup_cons in Hu as [Hnot _].
    rewrite indexTracks_track_keep by done.
    rewrite lookup_insert_eq. f_equal. lia.
  - apply NoDup_cons in Hu as [_ Hu].
    rewrite (IH (S t) _ _ i Hu HT). f_equal. lia.
Qed.

Lemma trackIndex_rebuilt tl :
  indices_agree tl ->
  Timeline.trackIndex_ tl
  = (Timeline.indexTracks 0 (Sequence.tracks (Timeline.sequence_ tl)) ∅ ∅).1.
Proof. unfold indices_agree. by intros <-. Qed.

Lemma clipIndex_rebuilt tl :
  indices_agree tl ->
  Timeline.clipIndex_ tl
  = (Timeline.indexTracks 0 (Sequence.tracks (Timeline.sequence_ tl)) ∅ ∅).2.
Proof. unfold indices_agree. by intros <-. Qed.

Lemma findTrack_at tl i T :
  indices_agree tl -> track_ids_unique tl ->
  Sequence.tracks (Timeline.sequence_ tl) !! i = Some T ->
  Timeline.findTrack tl (Track.id T) = Some i.
Proof.
  intros Ha Hu HT. unfold Timeline.findTrack.
  rewrite (trackIndex_rebuilt tl Ha).
  by rewrite (indexTracks_track_at 0 _ ∅ ∅ i T Hu HT).
Qed.

Lemma findClip_present tl T c :
  indices_agree tl ->
  T ∈ Sequence.tracks (Timeline.sequence_ tl) -> c ∈ Track.clips T ->
  is_Some (Timeline.findClip tl (Clip.id c)).
Proof.
  intros Ha HT Hc. unfold Timeline.findClip.
  rewrite (clipIndex_rebuilt tl Ha).
  apply indexTracks_clip_is_Some. right. by exists T, c.
Qed.

(** In every reachable state [trackIndex_] is the table of positions:
    it sends an id to [i] exactly when the track at position [i] has
    that id. *)
Theorem X_findTrack_agrees tl trackId i :
  reachable tl ->
  (Timeline.findTrack tl trackId = Some i <->
   exists T, Sequence.tracks (Timeline.sequence tl) !! i = Some T /\
             Track.id T = trackId).
Proof.
  intros Hr.
  pose proof (reachable_indices_agree tl Hr) as Ha.
  pose proof (reachable_track_ids_unique tl Hr) as Hu.
  split.
  - by apply findTrack_sound.
  - intros (T & HT & <-). by apply findTrack_at.
Qed.

Lemma X_findTrack_agrees_witness :
  Timeline.findTrack (run twoTracksScript) "v2" = Some 1%nat <->
  exists T,
    Sequence.tracks (Timeline.sequence (run twoTracksScript)) !! 1%nat
    = Some T /\ Track.id T = "v2".
Proof.
  apply (X_findTrack_agrees (run twoTracksScript) "v2" 1).
  apply reachable_run.
Defined.

(** In every reachable state an entry of [clipIndex_] points at a clip
    of that id, and an id has an entry exactly when some clip of some
    track carries it. *)
Theorem X_findClip_agrees tl clipId :
  reachable tl ->
  (forall loc, Timeline.findClip tl clipId = Some loc ->
     exists T c,
       Sequence.tracks (Timeline.sequence tl) !! loc.1 = Some T /\
       Track.clips T !! loc.2 = Some c /\ Clip.id c = clipId) /\
  (Timeline.findClip tl clipId = None <->
   forall T c, T ∈ Sequence.tracks (Timeline.sequence tl) ->
               c ∈ Track.clips T -> Clip.id c <> clipId).
Proof.
  intros Hr. pose proof (reachable_indices_agree tl Hr) as Ha.
  split; [intros loc; by apply indexTracks_clip_sound |].
  split.
  - intros Hnone T c HT Hc <-.
    destruct (findClip_present tl T c Ha HT Hc) as [loc Hloc]. congruence.
  - intros H. destruct (Timeline.findClip tl clipId) as [loc|] eqn:E; [|done].
    destruct (indexTracks_clip_sound tl clipId loc Ha E)
      as (T & c & HT & Hc & Hid).
    destruct (H T c); try done; by eapply list_elem_of_lookup_2.
Qed.

Lemma X_findClip_agrees_witness :
  let tl := run twoTracksScript in
  (forall loc, Timeline.findClip tl "q" = Some loc ->
     exists T c,
       Sequence.tracks (Timeline.sequence tl) !! loc.1 = Some T /\
       Track.clips T !! loc.2 = Some c /\ Clip.id c = "q") /\
  (Timeline.findClip tl "q" = None <->
   forall T c, T ∈ Sequence.tracks (Timeline.sequence tl) ->
               c ∈ Track.clips T -> Clip.id c <> "q").
Proof.
  apply (X_findClip_agrees (run twoTracksScript) "q").
  apply reachable_run.
Defined.

(** ** The undo buffer *)

Lemma step_undo tl op :
  (Timeline.undoStack_ (step tl op).2 = Timeline.undoStack_ tl /\
   Timeline.redoStack_ (step tl op).2 = Timeline.redoStack_ tl) \/
  (Timeline.undoStack_ (step tl op).2
   = Timeline.undoStack_ (Timeline.pushUndo tl) /\
   Timeline.redoStack_ (step tl op).2 = []).
Proof.
  destruct op;
    unfold step, Timeline.addTrack, Timeline.updateTrack,
      Timeline.removeTrack, Timeline.upsertClip, Timeline.moveClip,
      Timeline.trimClip, Timeline.splitClip, Timeline.rippleDelete;
    remember (Timeline.pushUndo tl) as tl1 eqn:E1;
    repeat case_match; subst tl1;
    first [left; split; reflexivity | right; split; reflexivity].
Qed.

Lemma structural_success_pushes tl op tl' :
  is_structural op = true -> step tl op = (true, tl') ->
  Timeline.undoStack_ tl' = Timeline.undoStack_ (Timeline.pushUndo tl) /\
  Timeline.redoStack_ tl' = [].
Proof.
  destruct op; try discriminate; intros _;
    unfold step, Timeline.addTrack, Timeline.updateTrack,
      Timeline.removeTrack, Timeline.upsertClip, Timeline.moveClip,
      Timeline.trimClip, Timeline.splitClip, Timeline.rippleDelete;
    remember (Timeline.pushUndo tl) as tl1 eqn:E1;
    intros H; repeat case_match; try discriminate;
    injection H as <-; subst tl1; split; reflexivity.
Qed.

(** In every reachable state the undo buffer holds at most 32 snapshots
    and the redo buffer is empty. *)
Theorem X_undo_bounded tl :
  reachable tl ->
  (length (Timeline.undoStack_ tl) <= 32)%nat /\ Timeline.redoStack_ tl = [].
Proof.
  induction 1 as [|tl op Hr [IHu IHr]]; [split; [simpl; lia | done] |].
  destruct (step_undo tl op) as [[-> ->]|[-> ->]]; [done |].
  split; [|done]. simpl. rewrite length_app. simpl.
  case_match eqn:E.
  - destruct (Timeline.undoStack_ tl); simpl in *; [lia |].
    rewrite length_app. simpl. lia.
  - apply Nat.ltb_ge in E. rewrite length_app. simpl. lia.
Qed.

Lemma X_undo_bounded_witness :
  (length (Timeline.undoStack_ (run movedPastScript)) <= 32)%nat /\
  Timeline.redoStack_ (run movedPastScript) = [].
Proof.
  apply (X_undo_bounded (run movedPastScript)).
  apply reachable_run.
Defined.

(** A call that changes the structure and succeeds leaves the sequence it
    found as the newest undo snapshot, behind the older ones: all of them
    while fewer than 32 were held, all but the oldest when 32 were held;
    and it empties the redo buffer. *)
Theorem X_success_snapshots_sequence tl op tl' :
  is_structural op = true ->
  step tl op = (true, tl') ->
  last (Timeline.undoStack_ tl') = Some (Timeline.sequence tl) /\
  ((length (Timeline.undoStack_ tl) < 32)%nat ->
   Timeline.undoStack_ tl'
   = Timeline.undoStack_ tl ++ [Timeline.sequence tl]) /\
  (length (Timeline.undoStack_ tl) = 32%nat ->
   Timeline.undoStack_ tl'
   = tail (Timeline.undoStack_ tl) ++ [Timeline.sequence tl]) /\
  Timeline.redoStack_ tl' = [].
Proof.
  intros Hop Hstep.
  destruct (structural_success_pushes tl op tl' Hop Hstep) as [-> ->].
  unfold Timeline.sequence. simpl. rewrite length_app. simpl.
  split; [|split; [|split; [|done]]].
  - case_match; [|apply last_snoc].
    destruct (Timeline.undoStack_ tl) as [|s u]; simpl in *; [done |].
    apply last_snoc.
  - intros Hlt. case_match eqn:E; [|done].
    apply Nat.ltb_lt in E. lia.
  - intros Heq. case_match eqn:E.
    + destruct (Timeline.undoStack_ tl); simpl in *; [lia | done].
    + apply Nat.ltb_ge in E. lia.
Qed.

Lemma X_success_snapshots_sequence_witness :
  let tl := run oneClipScript in
  let tl' := (step tl (TrimClip "a" 1 1)).2 in
  last (Timeline.undoStack_ tl') = Some (Timeline.sequence tl) /\
  ((length (Timeline.undoStack_ tl) < 32)%nat ->
   Timeline.undoStack_ tl'
   = Timeline.undoStack_ tl ++ [Timeline.sequence tl]) /\
  (length (Timeline.undoStack_ tl) = 32%nat ->
   Timeline.undoStack_ tl'
   = tail (Timeline.undoStack_ tl) ++ [Timeline.sequence tl]) /\
  Timeline.redoStack_ tl' = [].
Proof.
  apply (X_success_snapshots_sequence (run oneClipScript) (TrimClip "a" 1 1)).
  - reflexivity.
  - vm_compute. reflexivity.
Defined.

(** ** Tracks: add, replace, remove *)

Lemma delete_id_absent (ts : list Track.t) i T :
  NoDup (map Track.id ts) -> ts !! i = Some T ->
  Track.id T ∉ map Track.id (delete i ts).
Proof.
  revert i. induction ts as [|T' ts IH]; intros [|i] Hu HT; simpl in *;
    try done.
  - injection HT as ->. by apply NoDup_cons in Hu as [? _].
  - apply NoDup_cons in Hu as [Hnot Hu].
    apply not_elem_of_cons. split; [|by apply IH].
    intros E. apply Hnot. rewrite <- E.
    apply list_elem_of_In, in_map, list_elem_of_In.
    by eapply list_elem_of_lookup_2.
Qed.

Lemma id_in_tracks (ts : list Track.t) k :
  k ∈ map Track.id ts <-> exists T, T ∈ ts /\ Track.id T = k.
Proof.
  split.
  - intros H. apply list_elem_of_In, in_map_iff in H as (T & H1 & H2).
    exists T. split; [by apply list_elem_of_In | done].
  - intros (T & H1 & H2). apply list_elem_of_In, in_map_iff.
    exists T. split; [done | by apply list_elem_of_In].
Qed.

(** [addTrack] succeeds exactly when no track carries the id.  It then
    appends the track as it was handed in, the track index sends the id
    to the last position, and the cached duration is the one found. *)
Theorem X_addTrack tl track :
  reachable tl ->
  ((Timeline.addTrack tl track).1 = true <->
   forall T, T ∈ Sequence.tracks (Timeline.sequence tl) ->
             Track.id T <> Track.id track) /\
  (forall tl', Timeline.addTrack tl track = (true, tl') ->
     Sequence.tracks (Timeline.sequence tl')
     = Sequence.tracks (Timeline.sequence tl) ++ [track] /\
     Timeline.findTrack tl' (Track.id track)
     = Some (length (Sequence.tracks (Timeline.sequence tl))) /\
     Timeline.duration tl' = Timeline.duration tl).
Proof.
  intros Hr. pose proof (reachable_indices_agree tl Hr) as Ha.
  pose proof (reachable_step tl (AddTrack track) Hr) as Hr'.
  simpl in Hr'. revert Hr'.
  unfold Timeline.addTrack, Timeline.sequence.
  destruct (Timeline.trackIndex_ tl !! Track.id track) as [i|] eqn:E;
    intros Hr'; simpl.
  - split; [|done]. split; [done |]. intros H. exfalso.
    destruct (findTrack_sound tl _ _ Ha E) as (T & HT & Hid).
    apply (H T); [by eapply list_elem_of_lookup_2 | done].
  - split.
    + split; [|done]. intros _ T HT Hid.
      apply (findTrack_absent tl _ Ha E). apply id_in_tracks. by exists T.
    + intros tl' [= <-]. simpl. split; [done |]. split; [|done].
      apply (findTrack_at _ _ track (reachable_indices_agree _ Hr')
               (reachable_track_ids_unique _ Hr')).
      simpl. by apply list_lookup_middle.
Qed.

Lemma X_addTrack_witness :
  let tl := run oneClipScript in
  let track := videoTrack "v2" [] in
  ((Timeline.addTrack tl track).1 = true <->
   forall T, T ∈ Sequence.tracks (Timeline.sequence tl) ->
             Track.id T <> Track.id track) /\
  (forall tl', Timeline.addTrack tl track = (true, tl') ->
     Sequence.tracks (Timeline.sequence tl')
     = Sequence.tracks (Timeline.sequence tl) ++ [track] /\
     Timeline.findTrack tl' (Track.id track)
     = Some (length (Sequence.tracks (Timeline.sequence tl))) /\
     Timeline.duration tl' = Timeline.duration tl).
Proof.
  apply (X_addTrack (run oneClipScript) (videoTrack "v2" [])).
  apply reachable_run.
Defined.

(** [removeTrack] succeeds exactly when a track carries the id.  It then
    erases that track and nothing else, the id is no longer in the track
    index, and the cached duration is the one found. *)
Theorem X_removeTrack tl trackId :
  reachable tl ->
  ((Timeline.removeTrack tl trackId).1 = true <->
   exists T, T ∈ Sequence.tracks (Timeline.sequence tl) /\
             Track.id T = trackId) /\
  (forall tl', Timeline.removeTrack tl trackId = (true, tl') ->
     exists i T,
       Sequence.tracks (Timeline.sequence tl) !! i = Some T /\
       Track.id T = trackId /\
       Sequence.tracks (Timeline.sequence tl')
       = delete i (Sequence.tracks (Timeline.sequence tl)) /\
       Timeline.findTrack tl' trackId = None /\
       Timeline.duration tl' = Timeline.duration tl).
Proof.
  intros Hr. pose proof (reachable_indices_agree tl Hr) as Ha.
  pose proof (reachable_track_ids_unique tl Hr) as Hu.
  pose proof (reachable_step tl (RemoveTrack trackId) Hr) as Hr'.
  simpl in Hr'. revert Hr'.
  unfold Timeline.removeTrack, Timeline.sequence.
  destruct (Timeline.trackIndex_ tl !! trackId) as [i|] eqn:E;
    intros Hr'; simpl.
  - destruct (findTrack_sound tl _ _ Ha E) as (T & HT & Hid).
    split.
    + split; [|done]. intros _. exists T.
      split; [by eapply list_elem_of_lookup_2 | done].
    + intros tl' [= <-]. exists i, T. simpl.
      split; [done |]. split; [done |]. split; [done |]. split; [|done].
      apply eq_None_not_Some. intros [j Hj].
      destruct (findTrack_sound _ _ _ (reachable_indices_agree _ Hr') Hj)
        as (T' & HT' & Hid').
      simpl in HT'. subst trackId.
      apply (delete_id_absent _ i T Hu HT). apply id_in_tracks.
      exists T'. split; [by eapply list_elem_of_lookup_2 | done].
  - split; [|done]. split; [done |]. intros (T & HT & Hid). exfalso.
    apply (findTrack_absent tl _ Ha E). apply id_in_tracks. by exists T.
Qed.

Lemma X_removeTrack_witness :
  let tl := run twoTracksScript in
  ((Timeline.removeTrack tl "v1").1 = true <->
   exists T, T ∈ Sequence.tracks (Timeline.sequence tl) /\
             Track.id T = "v1") /\
  (forall tl', Timeline.removeTrack tl "v1" = (true, tl') ->
     exists i T,
       Sequence.tracks (Timeline.sequence tl) !! i = Some T /\
       Track.id T = "v1" /\
       Sequence.tracks (Timeline.sequence tl')
       = delete i (Sequence.tracks (Timeline.sequence tl)) /\
       Timeline.findTrack tl' "v1" = None /\
       Timeline.duration tl' = Timeline.duration tl).
Proof.
  apply (X_removeTrack (run twoTracksScript) "v1").
  apply reachable_run.
Defined.

(** [updateTrack] succeeds exactly when a track carries the id.  It then
    puts the track handed in, clips included, at the position of the old
    one; the other tracks, the index entry of the id and the cached
    duration stay. *)
Theorem X_updateTrack tl track :
  reachable tl ->
  ((Timeline.updateTrack tl track).1 = true <->
   exists T, T ∈ Sequence.tracks (Timeline.sequence tl) /\
             Track.id T = Track.id track) /\
  (forall tl', Timeline.updateTrack tl track = (true, tl') ->
     exists i old,
       Sequence.tracks (Timeline.sequence tl) !! i = Some old /\
       Track.id old = Track.id track /\
       Timeline.findTrack tl (Track.id track) = Some i /\
       Sequence.tracks (Timeline.sequence tl')
       = <[i := track]> (Sequence.tracks (Timeline.sequence tl)) /\
       Timeline.findTrack tl' (Track.id track) = Some i /\
       Timeline.duration tl' = Timeline.duration tl).
Proof.
  intros Hr. pose proof (reachable_indices_agree tl Hr) as Ha.
  pose proof (reachable_step tl (UpdateTrack track) Hr) as Hr'.
  simpl in Hr'. revert Hr'.
  unfold Timeline.updateTrack, Timeline.sequence.
  destruct (Timeline.findTrack tl (Track.id track)) as [i|] eqn:E;
    intros Hr'; simpl.
  - destruct (findTrack_sound tl _ _ Ha E) as (T & HT & Hid).
    assert (alter (fun _ : Track.t => track) i
              (Sequence.tracks (Timeline.sequence_ tl))
            = <[i := track]> (Sequence.tracks (Timeline.sequence_ tl)))
      as Ealter by (by rewrite (alter_as_insert _ i _ T HT)).
    split.
    + split; [|done]. intros _. exists T.
      split; [by eapply list_elem_of_lookup_2 | done].
    + intros tl' [= <-]. exists i, T. simpl.
      split; [done |]. split; [done |]. split; [done |].
      split; [done |]. split; [|done].
      apply (findTrack_at _ _ track (reachable_indices_agree _ Hr')
               (reachable_track_ids_unique _ Hr')).
      simpl. rewrite Ealter. apply list_lookup_insert_eq.
      by eapply lookup_lt_Some.
  - split; [|done]. split; [done |]. intros (T & HT & Hid). exfalso.
    apply (findTrack_absent tl _ Ha E). apply id_in_tracks. by exists T.
Qed.

Lemma X_updateTrack_witness :
  let tl := run twoClipsScript in
  let track := videoTrack "v1" [videoClip "b" "v1" 2 1] in
  ((Timeline.updateTrack tl track).1 = true <->
   exists T, T ∈ Sequence.tracks (Timeline.sequence tl) /\
             Track.id T = Track.id track) /\
  (forall tl', Timeline.updateTrack tl track = (true, tl') ->
     exists i old,
       Sequence.tracks (Timeline.sequence tl) !! i = Some old /\
       Track.id old = Track.id track /\
       Timeline.findTrack tl (Track.id track) = Some i /\
       Sequence.tracks (Timeline.sequence tl')
       = <[i := track]> (Sequence.tracks (Timeline.sequence tl)) /\
       Timeline.findTrack tl' (Track.id track) = Some i /\
       Timeline.duration tl' = Timeline.duration tl).
Proof.
  apply (X_updateTrack (run twoClipsScript)
           (videoTrack "v1" [videoClip "b" "v1" 2 1])).
  apply reachable_run.
Defined.

(** ** [upsertClip] and [validatePlacement] *)

Lemma placementFree_iff i cs candidate ignoreIndex :
  Timeline.placementFree i cs candidate ignoreIndex = true <->
  forall j c, cs !! j = Some c -> ignoreIndex <> Some (i + j)%nat ->
              clipOverlaps c candidate = false.
Proof.
  split.
  - intros H j c Hj Hne.
    destruct (clipOverlaps c candidate) eqn:E; [|done].
    by rewrite (placementFree_overlap i cs candidate ignoreIndex j c) in H.
  - revert i. induction cs as [|x cs IH]; intros i H; simpl; [done |].
    assert (Timeline.placementFree (S i) cs candidate ignoreIndex = true)
      as Hrest.
    { apply IH. intros j c Hj Hne. apply (H (S j) c); [done |].
      by replace (i + S j)%nat with (S i + j)%nat by lia. }
    case_bool_decide as Hi; [done |].
    rewrite (H 0%nat x); [done | done |].
    by rewrite Nat.add_0_r.
Qed.

(** [upsertClip] succeeds exactly when the clip names a track and either
    that track allows overlap or the clip overlaps no clip of it, the
    clip position of an existing clip of the same id left aside. *)
Theorem X_upsertClip_accepts tl clip :
  (Timeline.upsertClip tl clip).1 = true <->
  exists track,
    Timeline.findTrack tl (Clip.trackId clip) = Some track /\
    (Track.allowOverlap (Sequence.trackAt (Timeline.sequence tl) track) = true
     \/
     forall j c,
       Track.clips (Sequence.trackAt (Timeline.sequence tl) track) !! j
       = Some c ->
       (forall existing,
          Timeline.findClip tl (Clip.id clip) = Some existing ->
          existing.2 <> j) ->
       clipOverlaps c clip = false).
Proof.
  unfold Timeline.upsertClip, Timeline.findClip, Timeline.validatePlacement,
    Timeline.sequence.
  destruct (Timeline.findTrack tl (Clip.trackId clip)) as [track|];
    [|split; [done | by intros (? & ? & _)]].
  set (T := Sequence.trackAt (Timeline.sequence_ tl) track).
  destruct (Track.allowOverlap T) eqn:Eallow.
  - split; [intros _; exists track; auto |].
    intros _. by destruct (Timeline.clipIndex_ tl !! Clip.id clip).
  - destruct (Timeline.clipIndex_ tl !! Clip.id clip) as [existing|] eqn:E.
    + destruct (Timeline.placementFree 0 (Track.clips T) clip
                  (Some existing.2)) eqn:Efree; simpl.
      * split; [|done]. intros _. exists track. split; [done |]. right.
        intros j c Hj Hex.
        apply (proj1 (placementFree_iff 0 _ _ _) Efree j c Hj).
        simpl. intros [= Heq]. by apply (Hex existing).
      * split; [done |]. intros (track' & [= <-] & [Ht|Hfree]);
          [subst T; congruence |].
        rewrite <- Efree. apply placementFree_iff.
        intros j c Hj Hne. apply (Hfree j c Hj).
        intros existing' [= <-] Heq. apply Hne. simpl. by f_equal.
    + destruct (Timeline.placementFree 0 (Track.clips T) clip None)
        eqn:Efree; simpl.
      * split; [|done]. intros _. exists track. split; [done |]. right.
        intros j c Hj _.
        by apply (proj1 (placementFree_iff 0 _ _ _) Efree j c Hj).
      * split; [done |]. intros (track' & [= <-] & [Ht|Hfree]);
          [subst T; congruence |].
        rewrite <- Efree. apply placementFree_iff.
        intros j c Hj _. by apply (Hfree j c Hj).
Qed.

(** After a successful [upsertClip] the clip list of the track the clip
    names is in ascending order of [start]. *)
Theorem X_upsertClip_sorts tl clip tl' track :
  Timeline.findTrack tl (Clip.trackId clip) = Some track ->
  Timeline.upsertClip tl clip = (true, tl') ->
  sorted_by_start
    (Track.clips (Sequence.trackAt (Timeline.sequence tl') track)).
Proof. apply upsertClip_sorts_target. Qed.

Lemma X_upsertClip_sorts_witness :
  sorted_by_start
    (Track.clips
       (Sequence.trackAt
          (Timeline.sequence
             (Timeline.upsertClip (run twoClipsScript)
                (videoClip "c" "v1" 1 1)).2) 0)).
Proof.
  apply (X_upsertClip_sorts (run twoClipsScript) (videoClip "c" "v1" 1 1)).
  - vm_compute. reflexivity.
  - vm_compute. reflexivity.
Defined.

(** ** Writes that keep every clip in its slot *)

Lemma map_id_alter_at (f : Clip.t -> Clip.t) i cs c :
  cs !! i = Some c -> Clip.id (f c) = Clip.id c ->
  map Clip.id (alter f i cs) = map Clip.id cs.
Proof.
  revert i. induction cs as [|x cs IH]; intros [|i] Hc Hf; simpl in *;
    try done.
  - injection Hc as ->. by rewrite Hf.
  - f_equal. by apply IH.
Qed.

Lemma id_shape_alterClip_at loc f s T c :
  Sequence.tracks s !! loc.1 = Some T ->
  Track.clips T !! loc.2 = Some c ->
  Clip.id (f c) = Clip.id c ->
  id_shape (Sequence.tracks (Sequence.alterClip loc f s))
  = id_shape (Sequence.tracks s).
Proof.
  destruct loc as [ti ci]. simpl. intros HT Hc Hf.
  revert ti HT. generalize (Sequence.tracks s). intros ts.
  induction ts as [|T' ts IH]; intros [|ti] HT; simpl in *; try done.
  - injection HT as ->. by rewrite (map_id_alter_at f ci _ c).
  - f_equal. by apply IH.
Qed.

(** Rewriting one clip without touching its id leaves both indices, once
    rebuilt, as they were. *)
Lemma indices_after_alterClip tl loc f T c :
  indices_agree tl ->
  Sequence.tracks (Timeline.sequence_ tl) !! loc.1 = Some T ->
  Track.clips T !! loc.2 = Some c ->
  Clip.id (f c) = Clip.id c ->
  let tl' :=
    Timeline.rebuildIndices
      (Timeline.with_sequence (Timeline.pushUndo tl)
         (Sequence.alterClip loc f
            (Timeline.sequence_ (Timeline.pushUndo tl)))) in
  Timeline.trackIndex_ tl' = Timeline.trackIndex_ tl /\
  Timeline.clipIndex_ tl' = Timeline.clipIndex_ tl.
Proof.
  intros Ha HT Hc Hf.
  assert (Timeline.indexTracks 0
            (Sequence.tracks
               (Sequence.alterClip loc f (Timeline.sequence_ tl))) ∅ ∅
          = Timeline.indexTracks 0
              (Sequence.tracks (Timeline.sequence_ tl)) ∅ ∅) as E.
  { apply indexTracks_shape.
    by apply (id_shape_alterClip_at loc f (Timeline.sequence_ tl) T c). }
  rewrite (trackIndex_rebuilt tl Ha), (clipIndex_rebuilt tl Ha).
  unfold Timeline.rebuildIndices. simpl in *. by rewrite E.
Qed.

(** ** [moveClip] *)

(** A successful [moveClip] rewrites [trackId] and [start] of the clip in
    the slot where it lies, and nothing else: every other slot holds the
    clip it held, and both indices send every id where they sent it. *)
Theorem X_moveClip_rewrites_in_place tl clipId targetTrackId newStart tl' loc :
  reachable tl ->
  Timeline.findClip tl clipId = Some loc ->
  Timeline.moveClip tl clipId targetTrackId newStart = (true, tl') ->
  Sequence.clipAt (Timeline.sequence tl') loc
  = Clip.with_start
      (Clip.with_trackId (Sequence.clipAt (Timeline.sequence tl) loc)
         targetTrackId) newStart /\
  (forall loc', loc' <> loc ->
     Sequence.clipAt (Timeline.sequence tl') loc'
     = Sequence.clipAt (Timeline.sequence tl) loc') /\
  (forall k, Timeline.findClip tl' k = Timeline.findClip tl k) /\
  (forall k, Timeline.findTrack tl' k = Timeline.findTrack tl k).
Proof.
  intros Hr Hfind Hmove.
  pose proof (reachable_indices_agree tl Hr) as Ha.
  destruct (indexTracks_clip_sound tl clipId loc Ha Hfind)
    as (T & c & HT & Hc & Hid).
  unfold Timeline.moveClip in Hmove. rewrite Hfind in Hmove.
  destruct (Timeline.findTrack tl targetTrackId) as [target|]; [|done].
  destruct (negb _); [done |]. injection Hmove as <-.
  unfold Timeline.sequence, Timeline.findClip, Timeline.findTrack.
  match goal with
  | |- context [Sequence.alterClip loc ?f _] =>
      destruct (clipAt_alterClip_eq (Timeline.sequence_ tl) loc f T c HT Hc)
        as [Eold Enew];
      destruct (indices_after_alterClip tl loc f T c Ha HT Hc) as [Et Ec];
        [simpl; by rewrite Eold |]
  end.
  split; [|split; [|split]].
  - simpl. rewrite clipAt_with_duration. by rewrite Enew, Eold.
  - intros loc' Hne. simpl. rewrite clipAt_with_duration.
    by apply clipAt_alterClip_ne.
  - intros k. exact (f_equal (fun m => m !! k) Ec).
  - intros k. exact (f_equal (fun m => m !! k) Et).
Qed.

Lemma X_moveClip_rewrites_in_place_witness :
  let tl := run twoTracksScript in
  let tl' := (Timeline.moveClip tl "p" "v2" 3).2 in
  Sequence.clipAt (Timeline.sequence tl') (0, 0)%nat
  = Clip.with_start
      (Clip.with_trackId (Sequence.clipAt (Timeline.sequence tl) (0, 0)%nat)
         "v2") 3 /\
  (forall loc', loc' <> (0, 0)%nat ->
     Sequence.clipAt (Timeline.sequence tl') loc'
     = Sequence.clipAt (Timeline.sequence tl) loc') /\
  (forall k, Timeline.findClip tl' k = Timeline.findClip tl k) /\
  (forall k, Timeline.findTrack tl' k = Timeline.findTrack tl k).
Proof.
  apply (X_moveClip_rewrites_in_place (run twoTracksScript) "p" "v2" 3).
  - apply reachable_run.
  - vm_compute. reflexivity.
  - vm_compute. reflexivity.
Defined.

(** [moveClip] checks the candidate against every clip of the target
    track, the clip itself included.  Within a track that does not allow
    overlap, a move to a place that overlaps the place the clip has now
    is refused and the timeline stays as it was; so is the move to the
    very start the clip already has, once the clip is longer than the
    tolerance. *)
Theorem X_moveClip_refuses_own_overlap tl clipId targetTrackId newStart loc :
  reachable tl ->
  Timeline.findClip tl clipId = Some loc ->
  Timeline.findTrack tl targetTrackId = Some loc.1 ->
  Track.allowOverlap (Sequence.trackAt (Timeline.sequence tl) loc.1) = false ->
  clipOverlaps (Sequence.clipAt (Timeline.sequence tl) loc)
    (Clip.with_start
       (Clip.with_trackId (Sequence.clipAt (Timeline.sequence tl) loc)
          targetTrackId) newStart) = true ->
  Timeline.moveClip tl clipId targetTrackId newStart = (false, tl).
Proof.
  unfold Timeline.sequence. intros Hr Hfind Htrack Hallow Hov.
  pose proof (reachable_indices_agree tl Hr) as Ha.
  destruct (indexTracks_clip_sound tl clipId loc Ha Hfind)
    as (T & c & HT & Hc & Hid).
  assert (Sequence.trackAt (Timeline.sequence_ tl) loc.1 = T) as ET
    by (by apply list_lookup_total_correct).
  assert (Sequence.clipAt (Timeline.sequence_ tl) loc = c) as Ec.
  { unfold Sequence.clipAt. rewrite ET. by apply list_lookup_total_correct. }
  unfold Timeline.moveClip, Timeline.validatePlacement.
  rewrite Hfind, Htrack, Hallow, ET. rewrite Ec in *.
  by rewrite (placementFree_overlap 0 _ _ None loc.2 c Hc Hov).
Qed.

Lemma X_moveClip_refuses_own_overlap_witness :
  Timeline.moveClip (run oneClipScript) "a" "v1" 0
  = (false, run oneClipScript).
Proof.
  apply (X_moveClip_refuses_own_overlap (run oneClipScript) "a" "v1" 0
           (0, 0)%nat).
  - apply reachable_run.
  - vm_compute. reflexivity.
  - vm_compute. reflexivity.
  - vm_compute. reflexivity.
  - vm_compute. reflexivity.
Defined.

(** ** [trimClip], whatever the signs *)

(** On an existing clip [trimClip] succeeds exactly when
    [duration - dStart - dEnd] is positive.  It then sets the duration to
    that value, adds [dStart] to [trimStart] and [dEnd] to [trimEnd],
    and leaves [start], every other clip and both indices alone. *)
Theorem X_trimClip tl clipId dStart dEnd loc :
  reachable tl ->
  Timeline.findClip tl clipId = Some loc ->
  let old := Sequence.clipAt (Timeline.sequence tl) loc in
  ((Timeline.trimClip tl clipId dStart dEnd).1 = true <->
   (0 < Clip.duration old - dStart - dEnd)%Q) /\
  (forall tl', Timeline.trimClip tl clipId dStart dEnd = (true, tl') ->
     Sequence.clipAt (Timeline.sequence tl') loc
     = Clip.with_duration
         (Clip.with_trimEnd
            (Clip.with_trimStart old (Clip.trimStart old + dStart)%Q)
            (Clip.trimEnd old + dEnd)%Q)
         (Clip.duration old - dStart - dEnd)%Q /\
     (forall loc', loc' <> loc ->
        Sequence.clipAt (Timeline.sequence tl') loc'
        = Sequence.clipAt (Timeline.sequence tl) loc') /\
     (forall k, Timeline.findClip tl' k = Timeline.findClip tl k)).
Proof.
  intros Hr Hfind old. subst old. unfold Timeline.sequence.
  pose proof (reachable_indices_agree tl Hr) as Ha.
  destruct (indexTracks_clip_sound tl clipId loc Ha Hfind)
    as (T & c & HT & Hc & Hid).
  unfold Timeline.trimClip. rewrite Hfind.
  set (old := Sequence.clipAt (Timeline.sequence_ tl) loc).
  destruct (std_max_cases 0 (Clip.duration old - dStart - dEnd))
    as [[Emax Hle]|[Emax Hlt]]; rewrite Emax.
  - assert (dle 0 0 = true) as -> by (by apply dle_spec).
    split; [split; [done | lra] | done].
  - assert (dle (Clip.duration old - dStart - dEnd) 0 = false) as ->.
    { apply not_true_iff_false. rewrite dle_spec. lra. }
    split; [done |]. intros tl' [= <-].
    unfold Timeline.findClip.
    match goal with
    | |- context [Sequence.alterClip loc ?f _] =>
        destruct (clipAt_alterClip_eq (Timeline.sequence_ tl) loc f T c HT Hc)
          as [Eold Enew]
    end.
    split; [|split; [|done]].
    + simpl. rewrite clipAt_with_duration, Enew. subst old.
      by rewrite Eold.
    + intros loc' Hne. simpl. rewrite clipAt_with_duration.
      by apply clipAt_alterClip_ne.
Qed.

Lemma X_trimClip_witness :
  let tl := run abuttingClipsScript in
  let old := Sequence.clipAt (Timeline.sequence tl) (0, 0)%nat in
  ((Timeline.trimClip tl "c" (-1) 2).1 = true <->
   (0 < Clip.duration old - -1 - 2)%Q) /\
  (forall tl', Timeline.trimClip tl "c" (-1) 2 = (true, tl') ->
     Sequence.clipAt (Timeline.sequence tl') (0, 0)%nat
     = Clip.with_duration
         (Clip.with_trimEnd
            (Clip.with_trimStart old (Clip.trimStart old + -1)%Q)
            (Clip.trimEnd old + 2)%Q)
         (Clip.duration old - -1 - 2)%Q /\
     (forall loc', loc' <> (0, 0)%nat ->
        Sequence.clipAt (Timeline.sequence tl') loc'
        = Sequence.clipAt (Timeline.sequence tl) loc') /\
     (forall k, Timeline.findClip tl' k = Timeline.findClip tl k)).
Proof.
  apply (X_trimClip (run abuttingClipsScript) "c" (-1) 2 (0, 0)%nat).
  - apply reachable_run.
  - vm_compute. reflexivity.
Defined.

(** ** Reads after a write through a [Track*] *)

Lemma trackAt_alterTrack_eq s ti f T :
  Sequence.tracks s !! ti = Some T ->
  Sequence.trackAt (Sequence.alterTrack ti f s) ti = f T.
Proof.
  intros HT. unfold Sequence.trackAt, Sequence.alterTrack. simpl.
  rewrite list_lookup_total_alter_eq by (by eapply lookup_lt_Some).
  by rewrite (list_lookup_total_correct _ _ _ HT).
Qed.




(** ** [splitClip] *)



(** ** [upsertClip] of a clip whose id is new *)

Lemma tracks_alterTrack_lookup s ti f :
  Sequence.tracks (Sequence.alterTrack ti f s) !! ti
  = f <$> Sequence.tracks s !! ti.
Proof.
  unfold Sequence.alterTrack. simpl. apply list_lookup_alter_eq.
Qed.

Lemma tracks_alterTrack_lookup_ne s ti tj f :
  ti <> tj ->
  Sequence.tracks (Sequence.alterTrack ti f s) !! tj
  = Sequence.tracks s !! tj.
Proof.
  intros Hne. unfold Sequence.alterTrack. simpl.
  by apply list_lookup_alter_ne.
Qed.

Lemma findClip_None_absent tl k T c :
  indices_agree tl ->
  Timeline.findClip tl k = None ->
  T ∈ Sequence.tracks (Timeline.sequence_ tl) -> c ∈ Track.clips T ->
  Clip.id c <> k.
Proof.
  intros Ha Hnone HT Hc <-.
  destruct (findClip_present tl T c Ha HT Hc) as [loc Hloc]. congruence.
Qed.

(** [upsertClip] of a clip whose id is in no track, when it succeeds,
    adds the clip as handed in to the track it names and to no other:
    that track holds the clips it held and the new one, the other tracks
    are as they were, and [findClip] now sends the id to the slot of that
    track where the clip lies. *)
Theorem X_upsertClip_new tl clip tl' :
  reachable tl ->
  Timeline.findClip tl (Clip.id clip) = None ->
  Timeline.upsertClip tl clip = (true, tl') ->
  exists track ci,
    Timeline.findTrack tl (Clip.trackId clip) = Some track /\
    Timeline.findClip tl' (Clip.id clip) = Some (track, ci) /\
    Track.clips (Sequence.trackAt (Timeline.sequence tl') track) !! ci
    = Some clip /\
    Track.clips (Sequence.trackAt (Timeline.sequence tl') track)
    ≡ₚ clip :: Track.clips (Sequence.trackAt (Timeline.sequence tl) track) /\
    (forall tj, tj <> track ->
       Sequence.trackAt (Timeline.sequence tl') tj
       = Sequence.trackAt (Timeline.sequence tl) tj).
Proof.
  intros Hr Hnone Hup.
  pose proof (reachable_indices_agree tl Hr) as Ha.
  pose proof (reachable_step tl (UpsertClip clip) Hr) as Hr'.
  simpl in Hr'. rewrite Hup in Hr'. simpl in Hr'.
  pose proof (reachable_indices_agree tl' Hr') as Ha'.
  unfold Timeline.upsertClip in Hup. unfold Timeline.findClip in Hnone.
  destruct (Timeline.findTrack tl (Clip.trackId clip)) as [track|] eqn:Etrack;
    [|done].
  rewrite Hnone in Hup. destruct (negb _); [done |].
  injection Hup as Htl'.
  destruct (findTrack_sound tl _ _ Ha Etrack) as (T0 & HT0 & _).
  set (s2 := Sequence.alterTrack track (Timeline.pushClip clip)
               (Timeline.sequence_ tl)).
  set (s3 := Sequence.alterTrack track Timeline.sortTrack s2).
  assert (Timeline.sequence_ tl'
          = Sequence.with_duration s3
              (Timeline.maxEndTracks (Sequence.tracks s3) 0)) as Eseq
    by (by rewrite <- Htl').
  clear Htl'.
  assert (Sequence.tracks s2 !! track = Some (Timeline.pushClip clip T0))
    as Hrow2.
  { unfold s2. by rewrite tracks_alterTrack_lookup, HT0. }
  assert (Sequence.tracks s3 !! track
          = Some (Timeline.sortTrack (Timeline.pushClip clip T0))) as Hrow3.
  { unfold s3. by rewrite tracks_alterTrack_lookup, Hrow2. }
  assert (forall tj, tj <> track ->
            Sequence.tracks s3 !! tj
            = Sequence.tracks (Timeline.sequence_ tl) !! tj) as Hother.
  { intros tj Hne. unfold s3, s2.
    by rewrite !tracks_alterTrack_lookup_ne. }
  assert (Sequence.trackAt (Timeline.sequence_ tl) track = T0) as ET0
    by (by apply list_lookup_total_correct).
  assert (std_sort (Track.clips T0 ++ [clip]) ≡ₚ clip :: Track.clips T0)
    as Hperm.
  { rewrite std_sort_Permutation. symmetry. apply Permutation_cons_append. }
  assert (is_Some (Timeline.findClip tl' (Clip.id clip))) as [loc Hloc].
  { apply (findClip_present tl'
             (Timeline.sortTrack (Timeline.pushClip clip T0)) clip Ha').
    - rewrite Eseq. simpl. by eapply list_elem_of_lookup_2.
    - simpl. rewrite Hperm. apply list_elem_of_here. }
  destruct (indexTracks_clip_sound tl' _ loc Ha' Hloc)
    as (T' & c' & HT' & Hc' & Hid').
  rewrite Eseq in HT'.
  change (Sequence.tracks (Sequence.with_duration s3 _))
    with (Sequence.tracks s3) in HT'.
  assert (loc.1 = track) as Eloc.
  { destruct (decide (loc.1 = track)) as [|Hne]; [done |]. exfalso.
    rewrite (Hother _ Hne) in HT'.
    apply (findClip_None_absent tl (Clip.id clip) T' c' Ha Hnone);
      [| |done]; by eapply list_elem_of_lookup_2. }
  rewrite Eloc, Hrow3 in HT'. injection HT' as <-. simpl in Hc'.
  assert (c' = clip) as ->.
  { apply list_elem_of_lookup_2 in Hc'. rewrite Hperm in Hc'.
    apply elem_of_cons in Hc' as [->|Hc']; [done |]. exfalso.
    apply (findClip_None_absent tl (Clip.id clip) T0 c' Ha Hnone);
      [by eapply list_elem_of_lookup_2 | done | done]. }
  exists track, loc.2. unfold Timeline.sequence. rewrite Eseq.
  change (Sequence.trackAt (Sequence.with_duration s3 _))
    with (Sequence.trackAt s3).
  assert (Sequence.trackAt s3 track
          = Timeline.sortTrack (Timeline.pushClip clip T0)) as ET3
    by (by apply list_lookup_total_correct).
  rewrite ET3, ET0. simpl.
  split; [done |]. split; [by rewrite <- Eloc, <- surjective_pairing |].
  split; [done |]. split; [done |].
  intros tj Hne. unfold Sequence.trackAt.
  rewrite !list_lookup_total_alt. by rewrite Hother.
Qed.

Lemma X_upsertClip_new_witness :
  let tl := run twoClipsScript in
  let clip := videoClip "c" "v1" 1 1 in
  let tl' := (Timeline.upsertClip tl clip).2 in
  exists track ci,
    Timeline.findTrack tl (Clip.trackId clip) = Some track /\
    Timeline.findClip tl' (Clip.id clip) = Some (track, ci) /\
    Track.clips (Sequence.trackAt (Timeline.sequence tl') track) !! ci
    = Some clip /\
    Track.clips (Sequence.trackAt (Timeline.sequence tl') track)
    ≡ₚ clip :: Track.clips (Sequence.trackAt (Timeline.sequence tl) track) /\
    (forall tj, tj <> track ->
       Sequence.trackAt (Timeline.sequence tl') tj
       = Sequence.trackAt (Timeline.sequence tl) tj).
Proof.
  apply (X_upsertClip_new (run twoClipsScript) (videoClip "c" "v1" 1 1)).
  - apply reachable_run.
  - vm_compute. reflexivity.
  - vm_compute. reflexivity.
Defined.

(** ** Tracks that stay free of overlap *)

Lemma clipOverlaps_sym a b : clipOverlaps a b = clipOverlaps b a.
Proof.
  unfold clipOverlaps.
  pose proof (std_min_cases (Clip.endTime a) (Clip.endTime b)) as H1.
  pose proof (std_min_cases (Clip.endTime b) (Clip.endTime a)) as H2.
  pose proof (std_max_cases (Clip.start a) (Clip.start b)) as H3.
  pose proof (std_max_cases (Clip.start b) (Clip.start a)) as H4.
  set (m1 := std_min (Clip.endTime a) (Clip.endTime b)) in *.
  set (m2 := std_min (Clip.endTime b) (Clip.endTime a)) in *.
  set (M1 := std_max (Clip.start a) (Clip.start b)) in *.
  set (M2 := std_max (Clip.start b) (Clip.start a)) in *.
  clearbody m1 m2 M1 M2.
  destruct (dgt (m1 - M1) _) eqn:E1, (dgt (m2 - M2) _) eqn:E2;
    try done; exfalso.
  - apply not_true_iff_false in E2. apply E2.
    apply dgt_spec in E1. apply dgt_spec.
    destruct H1 as [[-> ?]|[-> ?]], H2 as [[-> ?]|[-> ?]],
      H3 as [[-> ?]|[-> ?]], H4 as [[-> ?]|[-> ?]]; lra.
  - apply not_true_iff_false in E1. apply E1.
    apply dgt_spec in E2. apply dgt_spec.
    destruct H1 as [[-> ?]|[-> ?]], H2 as [[-> ?]|[-> ?]],
      H3 as [[-> ?]|[-> ?]], H4 as [[-> ?]|[-> ?]]; lra.
Qed.

Lemma overlap_free_snoc cs clip :
  overlap_free cs ->
  Forall (fun c => clipOverlaps c clip = false) cs ->
  overlap_free (cs ++ [clip]).
Proof.
  unfold overlap_free. induction 1 as [|c cs Hc Hcs IH]; intros HF; simpl.
  - repeat constructor.
  - apply Forall_cons in HF as [Hcc HF]. constructor; [|by apply IH].
    apply Forall_app. split; [done | by constructor].
Qed.

Lemma sort_insert_overlap_free x l :
  Forall (fun y => clipOverlaps y x = false) l ->
  overlap_free l -> overlap_free (sort_insert x l).
Proof.
  unfold overlap_free. intros HF Hl. revert HF.
  induction Hl as [|y l Hy Hl IH]; intros HF; simpl.
  - repeat constructor.
  - apply Forall_cons in HF as [Hyx HF].
    destruct (dlt (Clip.start y) (Clip.start x)).
    + constructor; [|by apply IH].
      rewrite sort_insert_Permutation. by constructor.
    + constructor; [|by constructor].
      constructor; [by rewrite clipOverlaps_sym |].
      eapply Forall_impl; [exact HF |]. intros z Hz. simpl.
      by rewrite clipOverlaps_sym.
Qed.

Lemma std_sort_overlap_free l : overlap_free l -> overlap_free (std_sort l).
Proof.
  unfold overlap_free. induction 1 as [|x l Hx Hl IH]; simpl.
  - constructor.
  - apply sort_insert_overlap_free; [|done].
    rewrite std_sort_Permutation.
    eapply Forall_impl; [exact Hx |]. intros z Hz. simpl.
    by rewrite clipOverlaps_sym.
Qed.

(** On a track that does not allow overlap, a successful [upsertClip] of
    a clip whose id is new keeps the track free of overlap: if no two of
    its clips overlapped before, no two do afterwards. *)
Theorem X_upsertClip_new_keeps_overlap_free tl clip tl' track :
  reachable tl ->
  Timeline.findClip tl (Clip.id clip) = None ->
  Timeline.findTrack tl (Clip.trackId clip) = Some track ->
  Track.allowOverlap (Sequence.trackAt (Timeline.sequence tl) track) = false ->
  overlap_free
    (Track.clips (Sequence.trackAt (Timeline.sequence tl) track)) ->
  Timeline.upsertClip tl clip = (true, tl') ->
  overlap_free
    (Track.clips (Sequence.trackAt (Timeline.sequence tl') track)).
Proof.
  unfold Timeline.sequence. intros Hr Hnone Etrack Hallow Hfree Hup.
  pose proof (reachable_indices_agree tl Hr) as Ha.
  destruct (findTrack_sound tl _ _ Ha Etrack) as (T0 & HT0 & _).
  assert (Sequence.trackAt (Timeline.sequence_ tl) track = T0) as ET0
    by (by apply list_lookup_total_correct).
  unfold Timeline.upsertClip, Timeline.validatePlacement in Hup.
  unfold Timeline.findClip in Hnone.
  rewrite Etrack, Hnone, Hallow, ET0 in Hup. rewrite ET0 in Hfree.
  destruct (Timeline.placementFree 0 (Track.clips T0) clip None) eqn:Efree;
    [|done].
  injection Hup as <-.
  set (s2 := Sequence.alterTrack track (Timeline.pushClip clip)
               (Timeline.sequence_ tl)).
  change (Timeline.sequence_ _)
    with (Sequence.with_duration
            (Sequence.alterTrack track Timeline.sortTrack s2)
            (Timeline.maxEndTracks
               (Sequence.tracks
                  (Sequence.alterTrack track Timeline.sortTrack s2)) 0)).
  change (Sequence.trackAt (Sequence.with_duration ?s _))
    with (Sequence.trackAt (Sequence.alterTrack track Timeline.sortTrack s2)).
  assert (Sequence.tracks s2 !! track = Some (Timeline.pushClip clip T0))
    as Hrow2.
  { unfold s2. by rewrite tracks_alterTrack_lookup, HT0. }
  rewrite (trackAt_alterTrack_eq s2 track _ _ Hrow2). simpl.
  apply std_sort_overlap_free, overlap_free_snoc; [done |].
  apply Forall_lookup. intros j c Hj.
  by apply (proj1 (placementFree_iff 0 _ _ _) Efree j c Hj).
Qed.

Lemma X_upsertClip_new_keeps_overlap_free_witness :
  overlap_free
    (Track.clips
       (Sequence.trackAt
          (Timeline.sequence
             (Timeline.upsertClip (run twoClipsScript)
                (videoClip "c" "v1" 1 1)).2) 0)).
Proof.
  apply (X_upsertClip_new_keeps_overlap_free (run twoClipsScript)
           (videoClip "c" "v1" 1 1)).
  - apply reachable_run.
  - vm_compute. reflexivity.
  - vm_compute. reflexivity.
  - vm_compute. reflexivity.
  - repeat constructor.
  - vm_compute. reflexivity.
Defined.

(** ** Calls that fail, track ids, and [rippleDelete] on a sorted track *)

(** Every call other than [splitClip] that returns false hands back the
    timeline it was given: sequence, undo and redo buffers and indices
    are untouched. *)
Theorem X_failed_call_changes_nothing tl op tl' :
  (forall clipId offsetSeconds, op <> SplitClip clipId offsetSeconds) ->
  step tl op = (false, tl') -> tl' = tl.
Proof. apply failure_leaves_timeline. Qed.

Lemma X_failed_call_changes_nothing_witness :
  (step (run oneClipScript) (MoveClip "a" "v9" 7)).2 = run oneClipScript.
Proof.
  apply (X_failed_call_changes_nothing (run oneClipScript)
           (MoveClip "a" "v9" 7)).
  - discriminate.
  - vm_compute. reflexivity.
Defined.

(** In every reachable state no two tracks share an id: [addTrack]
    refuses an id in use, and no other call changes the id of a track or
    adds one. *)
Theorem X_track_ids_unique tl : reachable tl -> track_ids_unique tl.
Proof. apply reachable_track_ids_unique. Qed.

Lemma X_track_ids_unique_witness : track_ids_unique (run twoTracksScript).
Proof.
  apply (X_track_ids_unique (run twoTracksScript)).
  apply reachable_run.
Defined.

(** Where the removed clip names the track that holds it, lies behind the
    clips that start before it and in front of a sorted run of clips that
    start no earlier, and neither its start nor its duration is negative,
    [rippleDelete] succeeds, erases the clip, moves each clip behind it
    earlier by the removed duration (floored at 0), and leaves the clips
    before it and every other track as they were. *)
Theorem X_rippleDelete_closes_gap tl clipId ti T pre X post :
  Timeline.findClip tl clipId = Some (ti, length pre) ->
  Sequence.tracks (Timeline.sequence tl) !! ti = Some T ->
  Track.clips T = pre ++ X :: post ->
  Timeline.findTrack tl (Clip.trackId X) = Some ti ->
  (0 <= Clip.start X)%Q -> (0 <= Clip.duration X)%Q ->
  (forall c, c ∈ pre -> (Clip.start c < Clip.start X)%Q) ->
  (forall c, c ∈ post -> (Clip.start X <= Clip.start c)%Q) ->
  sorted_by_start post ->
  exists tl',
    Timeline.rippleDelete tl clipId = (true, tl') /\
    Sequence.tracks (Timeline.sequence tl')
    = <[ti := Track.with_clips T
                (pre ++ map (rippled (Clip.duration X)) post)]>
        (Sequence.tracks (Timeline.sequence tl)).
Proof. apply rippleDelete_on_sorted_track. Qed.

Lemma X_rippleDelete_closes_gap_witness :
  let a := videoClip "a" "v1" 0 1 in
  let b := videoClip "b" "v1" 2 1 in
  exists tl',
    Timeline.rippleDelete (run twoClipsScript) "a" = (true, tl') /\
    Sequence.tracks (Timeline.sequence tl')
    = <[0%nat := Track.with_clips (videoTrack "v1" [a; b])
                   ([] ++ map (rippled (Clip.duration a)) [b])]>
        (Sequence.tracks (Timeline.sequence (run twoClipsScript))).
Proof.
  apply (X_rippleDelete_closes_gap (run twoClipsScript) "a" 0
           (videoTrack "v1" [videoClip "a" "v1" 0 1; videoClip "b" "v1" 2 1])
           [] (videoClip "a" "v1" 0 1) [videoClip "b" "v1" 2 1]).
  - vm_compute. reflexivity.
  - vm_compute. reflexivity.
  - reflexivity.
  - vm_compute. reflexivity.
  - vm_compute. discriminate.
  - vm_compute. discriminate.
  - intros c Hc. by apply elem_of_nil in Hc.
  - intros c Hc. apply list_elem_of_singleton in Hc as ->.
    vm_compute. discriminate.
  - repeat constructor.
Defined.
